(** * Bouncing ball in a spinning hexagon: a shallow embedding of [main.go]

    The program's [float64] values are modelled by the real numbers of the
    Standard Library: every arithmetic operation is the exact one,
    [math.Hypot x y] is [sqrt (x*x + y*y)], [math.Cos], [math.Sin] and
    [math.Pi] are [cos], [sin] and [PI].  Rounding, infinities and NaN are
    outside the model.  A [float64] division whose divisor is zero (which in
    Go yields an infinity or a NaN) is the one place where the exact model
    would silently differ, so division is a checked operation here: it
    raises the fault [DivByZero], and the functions that divide live in a
    small error monad.  Indexing a slice out of its bounds (a Go panic) is
    the fault [IndexOutOfRange]. *)

From Stdlib Require Import Reals Lra Lia List Arith RNsatz ZArith.
Import ListNotations.

Open Scope R_scope.

(** ** Faults and the error monad *)

Inductive fault : Set :=
| DivByZero
| IndexOutOfRange.

Inductive result (A : Type) : Type :=
| Ok (a : A)
| Err (f : fault).

Arguments Ok {A} a.
Arguments Err {A} f.

Definition bind {A B : Type} (m : result A) (k : A -> result B) : result B :=
  match m with
  | Ok a => k a
  | Err f => Err f
  end.

Notation "x <- m ;; k" := (bind m (fun x => k))
  (at level 61, m at next level, right associativity).

(** [a / b] on [float64]: a fault when the divisor is zero. *)
Definition fdiv (a b : R) : result R :=
  if Req_dec_T b 0 then Err DivByZero else Ok (a / b).

(** ** 1. Constants and Vector type *)

Definition screenWidth : R := 800.
Definition screenHeight : R := 600.

Record Vector : Set := mkVector { X : R; Y : R }.

Definition Add (v u : Vector) : Vector := mkVector (X v + X u) (Y v + Y u).
Definition Sub (v u : Vector) : Vector := mkVector (X v - X u) (Y v - Y u).
Definition Mul (v : Vector) (s : R) : Vector := mkVector (X v * s) (Y v * s).
Definition Dot (v u : Vector) : R := X v * X u + Y v * Y u.

(** [math.Hypot] *)
Definition Hypot (x y : R) : R := sqrt (x * x + y * y).

Definition Len (v : Vector) : R := Hypot (X v) (Y v).

Definition Normalize (v : Vector) : result Vector :=
  let l := Len v in
  if Req_dec_T l 0 then Ok (mkVector 0 0)
  else
    x <- fdiv (X v) l ;;
    y <- fdiv (Y v) l ;;
    Ok (mkVector x y).

(** Perp: rotated by 90 degrees counterclockwise. *)
Definition Perp (v : Vector) : Vector := mkVector (- Y v) (X v).

(** An index into a slice; out of range is a run-time panic in Go. *)
Definition index {A : Type} (l : list A) (i : nat) : result A :=
  match nth_error l i with
  | Some a => Ok a
  | None => Err IndexOutOfRange
  end.

(** ** 2. The Game struct holds the simulation state *)

(** The pre-rendered ball sprite is a pointer to an image owned by the
    graphics library; only its identity is kept. *)
Definition Image : Set := nat.

Record Game : Set := mkGame {
  ballPos : Vector;
  ballVel : Vector;
  ballRadius : R;
  hexRotation : R;
  hexAngularSpeed : R;
  hexRadius : R;
  circleImage : Image
}.

Definition set_ballPos (g : Game) (p : Vector) : Game :=
  mkGame p (ballVel g) (ballRadius g) (hexRotation g) (hexAngularSpeed g)
         (hexRadius g) (circleImage g).

Definition set_ballVel (g : Game) (v : Vector) : Game :=
  mkGame (ballPos g) v (ballRadius g) (hexRotation g) (hexAngularSpeed g)
         (hexRadius g) (circleImage g).

Definition set_hexRotation (g : Game) (a : R) : Game :=
  mkGame (ballPos g) (ballVel g) (ballRadius g) a (hexAngularSpeed g)
         (hexRadius g) (circleImage g).

(** [NewGame]; [img] is the sprite that [createCircleImage] returns. *)
Definition NewGame (img : Image) : Game :=
  mkGame (mkVector (screenWidth / 2) (screenHeight / 2 - 150))
         (mkVector 100 0)
         10
         0
         (1 / 2)
         200
         img.

(** ** 6. Utility: hexagon vertices and segment collision *)

Definition hexCenter : Vector := mkVector (screenWidth / 2) (screenHeight / 2).

Definition hexVertex (g : Game) (i : nat) : Vector :=
  let center := hexCenter in
  let angle := hexRotation g + INR i * 2 * PI / 6 in
  mkVector (X center + hexRadius g * cos angle)
           (Y center + hexRadius g * sin angle).

Definition getHexagonVertices (g : Game) : list Vector :=
  map (hexVertex g) (seq 0 6).

Definition clamp01 (t : R) : R :=
  let t1 := if Rlt_dec t 0 then 0 else t in
  if Rgt_dec t1 1 then 1 else t1.

Definition closestPointOnSegment (A B P : Vector) : result Vector :=
  let AB := Sub B A in
  t <- fdiv (Dot (Sub P A) AB) (Dot AB AB) ;;
  Ok (Add A (Mul AB (clamp01 t))).

(** ** 4. The Update method: physics and collision handling *)

Definition dt : R := 1 / 60.
Definition gravity : R := 500.
Definition airFriction : R := 99 / 100.
Definition restitution : R := 9 / 10.

(** [g.ballVel.Y += gravity * dt] *)
Definition applyGravity (g : Game) : Game :=
  set_ballVel g (mkVector (X (ballVel g)) (Y (ballVel g) + gravity * dt)).

(** [g.ballVel = g.ballVel.Mul(airFriction)] *)
Definition applyFriction (g : Game) : Game :=
  set_ballVel g (Mul (ballVel g) airFriction).

(** [g.ballPos = g.ballPos.Add(g.ballVel.Mul(dt))] *)
Definition moveBall (g : Game) : Game :=
  set_ballPos g (Add (ballPos g) (Mul (ballVel g) dt)).

(** [g.hexRotation += g.hexAngularSpeed * dt] *)
Definition rotateHexagon (g : Game) : Game :=
  set_hexRotation g (hexRotation g + hexAngularSpeed g * dt).

(** The statements of [Update] before the loop over the edges. *)
Definition integrate (g : Game) : Game :=
  rotateHexagon (moveBall (applyFriction (applyGravity g))).

(** The collision normal: from the contact point toward the ball, or the
    edge's perpendicular when the centre of the ball lies on the edge. *)
Definition collisionNormal (A B diff : Vector) (dist : R) : result Vector :=
  if Req_dec_T dist 0 then Normalize (Perp (Sub B A)) else Normalize diff.

(** The velocity of the rotating wall at the point [closest]. *)
Definition wallVelocity (g : Game) (closest : Vector) : Vector :=
  let r := Sub closest hexCenter in
  Mul (Perp r) (hexAngularSpeed g).

(** The velocity after the contact with normal [normal] at [closest]. *)
Definition bounce (g : Game) (closest normal : Vector) : Vector :=
  let wallVel := wallVelocity g closest in
  let relVel := Sub (ballVel g) wallVel in
  let dot := Dot relVel normal in
  if Rlt_dec dot 0 then
    Add (Sub relVel (Mul normal ((1 + restitution) * dot))) wallVel
  else ballVel g.

(** The body of the loop over the edges, for the edge from [A] to [B]. *)
Definition resolveEdge (A B : Vector) (g : Game) : result Game :=
  closest <- closestPointOnSegment A B (ballPos g) ;;
  let diff := Sub (ballPos g) closest in
  let dist := Len diff in
  if Rlt_dec dist (ballRadius g) then
    let penetration := ballRadius g - dist in
    normal <- collisionNormal A B diff dist ;;
    let g1 := set_ballPos g (Add (ballPos g) (Mul normal penetration)) in
    Ok (set_ballVel g1 (bounce g1 closest normal))
  else Ok g.

Definition edgeStep (hexVertices : list Vector) (i : nat) (g : Game) : result Game :=
  A <- index hexVertices i ;;
  B <- index hexVertices ((i + 1) mod 6)%nat ;;
  resolveEdge A B g.

(** [for i := 0; i < 6; i++ { ... }], over the list of the indices. *)
Fixpoint forEdges (hexVertices : list Vector) (idx : list nat) (g : Game) : result Game :=
  match idx with
  | [] => Ok g
  | i :: rest => g' <- edgeStep hexVertices i g ;; forEdges hexVertices rest g'
  end.

(** The loop over the six edges; the vertices are computed once, before it. *)
Definition collide (g : Game) : result Game :=
  let hexVertices := getHexagonVertices g in
  forEdges hexVertices (seq 0 6) g.

Definition Update (g : Game) : result Game :=
  collide (integrate g).

(** [n] calls of [Update] in a row. *)
Fixpoint run (n : nat) (g : Game) : result Game :=
  match n with
  | O => Ok g
  | S k => g' <- run k g ;; Update g'
  end.

(** The states of a running simulation. *)
Inductive reachable : Game -> Prop :=
| reachable_new (img : Image) : reachable (NewGame img)
| reachable_update (g g' : Game) :
    reachable g -> Update g = Ok g' -> reachable g'.

(** What a renderer reads of a state: everything but the sprite. *)
Definition snapshot (g : Game) : Vector * Vector * R * list Vector :=
  (ballPos g, ballVel g, hexRotation g, getHexagonVertices g).

(** The hexagon, the radius of the ball and the sprite of two states agree. *)
Definition same_frame (g g' : Game) : Prop :=
  ballRadius g' = ballRadius g /\
  hexRotation g' = hexRotation g /\
  hexAngularSpeed g' = hexAngularSpeed g /\
  hexRadius g' = hexRadius g /\
  circleImage g' = circleImage g.

(** The same state with another sprite. *)
Definition withImage (img : Image) (g : Game) : Game :=
  mkGame (ballPos g) (ballVel g) (ballRadius g) (hexRotation g)
         (hexAngularSpeed g) (hexRadius g) img.

Definition rmap {A B : Type} (f : A -> B) (m : result A) : result B :=
  match m with
  | Ok a => Ok (f a)
  | Err e => Err e
  end.

(** A ball of radius 10 with its centre 3 above the middle of the segment
    from [(0,0)] to [(10,0)], moving with the velocity [vel]. *)
Definition contactA : Vector := mkVector 0 0.
Definition contactB : Vector := mkVector 10 0.
Definition contactGame (vel : Vector) : Game :=
  mkGame (mkVector 5 3) vel 10 0 (1 / 2) 200 0%nat.

(** ** The step of the specification *)

(** [Step dt] as the specification words it: gravity, damping, position,
    rotation, each with the timestep [h] handed in by the caller, then the
    pass over the six edges. *)
Definition Step (h : R) (g : Game) : result Game :=
  let vel1 := mkVector (X (ballVel g)) (Y (ballVel g) + 500 * h) in
  let vel2 := Mul vel1 (99 / 100) in
  let pos := Add (ballPos g) (Mul vel2 h) in
  let rotation := hexRotation g + hexAngularSpeed g * h in
  collide (mkGame pos vel2 (ballRadius g) rotation (hexAngularSpeed g)
                  (hexRadius g) (circleImage g)).

(** ** Coordinates for the analysis of the pass over the edges *)

(** An edge of length [hr] is laid along the first axis from 0 to [hr], the
    inside of the hexagon on the side of the positive second axis.  A point
    has the coordinate [s] along the edge and [h] across it. *)

(** [cs] is the point of the edge closest to a point at [s] along it. *)
Definition clampedTo (hr s cs : R) : Prop :=
  s < 0 /\ cs = 0 \/ 0 <= s <= hr /\ cs = s \/ hr < s /\ cs = hr.

(** [D] is the distance from the point [(s, h)] to the edge, reached at [cs]. *)
Definition footDist (hr s h cs D : R) : Prop :=
  clampedTo hr s cs /\ 0 <= D /\ D * D = (s - cs) * (s - cs) + h * h.

(** The positional correction of the loop body, in coordinates: a ball of
    radius [r] at [(s, h)], closer to the edge than [r], is moved to
    [(s', h')], away from the closest point of the edge, or straight into
    the hexagon when its centre lies on the edge. *)
Definition pushed (hr r s h s' h' : R) : Prop :=
  exists cs D : R,
    footDist hr s h cs D /\ D < r /\
    ((exists rho, rho * D = r /\ D <> 0 /\ s' = cs + (s - cs) * rho /\ h' = h * rho)
     \/ (D = 0 /\ s' = s /\ h' = r)).

(** Every point of the segment from [A] to [B] is at least [r] away from [P]. *)
Definition away (r : R) (A B P : Vector) : Prop :=
  forall l, 0 <= l <= 1 ->
    r * r <= Dot (Sub P (Add A (Mul (Sub B A) l))) (Sub P (Add A (Mul (Sub B A) l))).

(** Every point of the segment from [(a, b)] to [(c, d)], in coordinates,
    is at least [r] away from the point [(s, h)]. *)
Definition awayAt (r a b c d s h : R) : Prop :=
  forall l, 0 <= l <= 1 ->
    r * r <= (s - (a + (c - a) * l)) * (s - (a + (c - a) * l))
             + (h - (b + (d - b) * l)) * (h - (b + (d - b) * l)).

(** Where another edge of the hexagon lies in the coordinates of one edge:
    across the hexagon, or next to the edge at its first or second end. *)
Definition edgePlace (hr w a b c d : R) : Prop :=
  (hr * w / 2 <= b /\ hr * w / 2 <= d)
  \/ (a = - hr / 2 /\ b = hr * w / 2 /\ c = 0 /\ d = 0)
  \/ (a = hr /\ b = 0 /\ c = 3 * hr / 2 /\ d = hr * w / 2).

(** A sixth of a turn about the origin. *)
Definition turn60 (v : Vector) : Vector :=
  mkVector (X v / 2 - Y v * (sqrt 3 / 2)) (Y v / 2 + X v * (sqrt 3 / 2)).

(** [Layout]: the size of the window, whatever the size outside is. *)
Definition Layout (g : Game) (outsideWidth outsideHeight : Z) : Z * Z :=
  (800%Z, 600%Z).
(** ** 3. Helper: create a filled circle image *)

(** Go's [int] on a 64-bit platform: the integers modulo 2^64, read as
    signed. *)
Definition wrapInt (z : Z) : Z := ((z + 2 ^ 63) mod 2 ^ 64 - 2 ^ 63)%Z.

(** The values [0, 1, ..., n - 1] of a loop counter. *)
Definition upTo (n : Z) : list Z := map Z.of_nat (seq 0 (Z.to_nat n)).

(** [createCircleImage]: the image is owned by the graphics library; what
    the function does to it is modelled by the pixels it sets to the
    colour, in the order of the two loops.  The image has [diameter] rows
    and columns and every other pixel stays transparent. *)
Definition createCircleImage (radius : Z) : list (Z * Z) :=
  let diameter := wrapInt (2 * radius) in
  flat_map
    (fun y =>
       flat_map
         (fun x =>
            let dx := IZR (wrapInt (x - radius)) in
            let dy := IZR (wrapInt (y - radius)) in
            if Rle_dec (dx * dx + dy * dy) (IZR (wrapInt (radius * radius)))
            then [(x, y)] else [])
         (upTo diameter))
    (upTo diameter).

(** ** 5. The Draw method: rendering the scene *)

(** The calls of the graphics library that [Draw] makes, in their order:
    the screen filled with a colour, a white line, an image drawn with a
    translation. *)
Inductive DrawOp : Set :=
| OpFill (red green blue alpha : Z)
| OpLine (x1 y1 x2 y2 : R)
| OpImage (img : Image) (tx ty : R).

(** [GeoM.Translate], on the translation part of the matrix. *)
Definition Translate (geoM : Vector) (tx ty : R) : Vector :=
  mkVector (X geoM + tx) (Y geoM + ty).

Fixpoint drawEdges (hexVertices : list Vector) (idx : list nat)
  : result (list DrawOp) :=
  match idx with
  | [] => Ok []
  | i :: rest =>
      A <- index hexVertices i ;;
      B <- index hexVertices ((i + 1) mod 6)%nat ;;
      ops <- drawEdges hexVertices rest ;;
      Ok (OpLine (X A) (Y A) (X B) (Y B) :: ops)
  end.

Definition Draw (g : Game) : result (list DrawOp) :=
  let hexVertices := getHexagonVertices g in
  lines <- drawEdges hexVertices (seq 0 6) ;;
  let geoM := Translate (Translate (mkVector 0 0) (- ballRadius g) (- ballRadius g))
                        (X (ballPos g)) (Y (ballPos g)) in
  Ok (OpFill 30 30 30 255 :: lines ++ [OpImage (circleImage g) (X geoM) (Y geoM)]).

(** ** Facts on the vector kernel *)

Lemma fdiv_nonzero (a b : R) : b <> 0 -> fdiv a b = Ok (a / b).
Proof.
  intros Hb. unfold fdiv. destruct (Req_dec_T b 0) as [E | _]; [contradiction | reflexivity].
Qed.

Lemma fdiv_zero (a : R) : fdiv a 0 = Err DivByZero.
Proof.
  unfold fdiv. destruct (Req_dec_T 0 0) as [_ | N]; [reflexivity | now elim N].
Qed.

Lemma Hypot_nonneg (x y : R) : 0 <= Hypot x y.
Proof. apply sqrt_pos. Qed.

Lemma Hypot_sqr (x y : R) : Hypot x y * Hypot x y = x * x + y * y.
Proof. unfold Hypot. apply sqrt_sqrt. nra. Qed.

Lemma Hypot_zero_iff (x y : R) : Hypot x y = 0 <-> x = 0 /\ y = 0.
Proof.
  split.
  - intros H. pose proof (Hypot_sqr x y) as S. rewrite H in S. nra.
  - intros [-> ->]. unfold Hypot.
    replace (0 * 0 + 0 * 0) with 0 by ring. apply sqrt_0.
Qed.

Lemma Hypot_of_square (x y l : R) : 0 <= l -> x * x + y * y = l * l -> Hypot x y = l.
Proof.
  intros Hl E. unfold Hypot. rewrite E. now apply sqrt_square.
Qed.

Lemma Len_Dot (v : Vector) : Len v * Len v = Dot v v.
Proof. unfold Len, Dot. apply Hypot_sqr. Qed.

Lemma Normalize_nonzero (v : Vector) :
  Len v <> 0 -> Normalize v = Ok (mkVector (X v / Len v) (Y v / Len v)).
Proof.
  intros Hl. unfold Normalize.
  destruct (Req_dec_T (Len v) 0) as [E | _]; [contradiction |].
  rewrite !fdiv_nonzero by assumption. reflexivity.
Qed.

Lemma Normalize_zero (v : Vector) : Len v = 0 -> Normalize v = Ok (mkVector 0 0).
Proof.
  intros Hl. unfold Normalize.
  destruct (Req_dec_T (Len v) 0) as [_ | N]; [reflexivity | contradiction].
Qed.

(** C6. [Normalize] of a vector of length zero is [(0,0)] and of any other
    vector is the vector with both components divided by the length; in
    both cases the result is a value, that is, no division by zero is
    performed. *)
Theorem Normalize_guarded (v : Vector) :
  (Len v = 0 -> v = mkVector 0 0 /\ Normalize v = Ok (mkVector 0 0)) /\
  (Len v <> 0 -> Normalize v = Ok (mkVector (X v / Len v) (Y v / Len v))) /\
  Normalize v <> Err DivByZero.
Proof.
  split; [| split].
  - intros Hl. split; [| now apply Normalize_zero].
    apply Hypot_zero_iff in Hl. destruct v as [x y]; simpl in Hl.
    destruct Hl as [-> ->]. reflexivity.
  - apply Normalize_nonzero.
  - destruct (Req_dec_T (Len v) 0) as [E | N].
    + rewrite (Normalize_zero v E). discriminate.
    + rewrite (Normalize_nonzero v N). discriminate.
Qed.

Lemma Normalize_guarded_witness :
  Normalize (mkVector 0 0) = Ok (mkVector 0 0) /\
  Normalize (mkVector 3 4) = Ok (mkVector (3 / 5) (4 / 5)).
Proof.
  assert (L0 : Len (mkVector 0 0) = 0) by (apply Hypot_zero_iff; now split).
  assert (L5 : Len (mkVector 3 4) = 5) by (apply Hypot_of_square; simpl; lra).
  split.
  - exact (proj2 (proj1 (Normalize_guarded (mkVector 0 0)) L0)).
  - pose proof (proj1 (proj2 (Normalize_guarded (mkVector 3 4)))) as H.
    rewrite L5 in H. simpl in H. apply H. lra.
Defined.

(** ** The error monad *)

Lemma bind_Ok_inv {A B : Type} (m : result A) (k : A -> result B) (b : B) :
  bind m k = Ok b -> exists a, m = Ok a /\ k a = Ok b.
Proof.
  destruct m as [a | f]; simpl; intros H; [now exists a | discriminate].
Qed.

(** ** Geometry of the hexagon *)

(** The angle from vertex [i] to the next vertex of the cycle is a sixth of
    a turn, also from the last vertex back to the first. *)
Lemma next_vertex_angle (i : nat) :
  (i < 6)%nat ->
  cos (INR ((i + 1) mod 6) * 2 * PI / 6 - INR i * 2 * PI / 6) = 1 / 2 /\
  sin (INR ((i + 1) mod 6) * 2 * PI / 6 - INR i * 2 * PI / 6) = sqrt 3 / 2.
Proof.
  intros Hi.
  assert (Hwrap : cos (PI / 3 - 2 * PI) = 1 / 2 /\ sin (PI / 3 - 2 * PI) = sqrt 3 / 2).
  { rewrite cos_minus, sin_minus, cos_2PI, sin_2PI, cos_PI3, sin_PI3. split; lra. }
  assert (Hcase : i = 5%nat \/
                  (INR ((i + 1) mod 6) * 2 * PI / 6 - INR i * 2 * PI / 6 = PI / 3)).
  { do 5 (destruct i as [| i]; [right; simpl; lra |]).
    destruct i as [| i]; [now left | lia]. }
  destruct Hcase as [-> | ->].
  - replace (INR ((5 + 1) mod 6) * 2 * PI / 6 - INR 5 * 2 * PI / 6)
      with (PI / 3 - 2 * PI) by (simpl; lra).
    exact Hwrap.
  - rewrite cos_PI3, sin_PI3. split; reflexivity.
Qed.

Section Edge.

Variable g : Game.
Variable i : nat.
Hypothesis Hi : (i < 6)%nat.

Let A := hexVertex g i.
Let B := hexVertex g ((i + 1) mod 6).

(** The components of the edge from vertex [i] to the next vertex, in
    terms of the direction [(c, s)] of vertex [i]. *)
Lemma edge_components :
  exists c s : R,
    c * c + s * s = 1 /\
    Sub A hexCenter = mkVector (hexRadius g * c) (hexRadius g * s) /\
    Sub B A = mkVector (hexRadius g * (- c / 2 - s * (sqrt 3 / 2)))
                       (hexRadius g * (- s / 2 + c * (sqrt 3 / 2))).
Proof.
  destruct (next_vertex_angle i Hi) as [Hc Hs].
  set (a := hexRotation g + INR i * 2 * PI / 6).
  set (d := INR ((i + 1) mod 6) * 2 * PI / 6 - INR i * 2 * PI / 6) in *.
  exists (cos a), (sin a). split; [| split].
  - pose proof (sin2_cos2 a) as H. unfold Rsqr in H. lra.
  - unfold A, hexVertex, Sub; cbn [X Y]. fold a. f_equal; ring.
  - unfold A, B, hexVertex, Sub; cbn [X Y]. fold a.
    replace (hexRotation g + INR ((i + 1) mod 6) * 2 * PI / 6) with (a + d)
      by (unfold a, d; lra).
    rewrite cos_plus, sin_plus, Hc, Hs. f_equal; field.
Qed.

(** Every edge is as long as the hexagon's radius. *)
Lemma edge_Dot : Dot (Sub B A) (Sub B A) = hexRadius g * hexRadius g.
Proof.
  destruct edge_components as (c & s & Hcs & _ & ->).
  unfold Dot; cbn [X Y].
  assert (H3 : sqrt 3 * sqrt 3 = 3) by (apply sqrt_sqrt; lra).
  transitivity (hexRadius g * hexRadius g *
                ((c * c + s * s) / 4 + (c * c + s * s) * (sqrt 3 * sqrt 3) / 4)).
  - field.
  - rewrite Hcs, H3. field.
Qed.

(** The perpendicular of an edge, measured from any point of the edge's
    line toward the centre of the hexagon. *)
Lemma edge_Perp_inward (t : R) :
  Dot (Perp (Sub B A)) (Sub hexCenter (Add A (Mul (Sub B A) t)))
  = hexRadius g * hexRadius g * (sqrt 3 / 2).
Proof.
  destruct edge_components as (c & s & Hcs & HA & HB).
  assert (HcA : Sub hexCenter (Add A (Mul (Sub B A) t))
                = Sub (Mul (Sub A hexCenter) (-1)) (Mul (Sub B A) t)).
  { unfold Sub, Add, Mul; cbn [X Y]. f_equal; ring. }
  rewrite HcA, HA, HB. unfold Dot, Perp, Sub, Mul; cbn [X Y].
  transitivity (hexRadius g * hexRadius g * ((c * c + s * s) * (sqrt 3 / 2))).
  - field.
  - rewrite Hcs. field.
Qed.

End Edge.

(** ** Totality of the vector kernel *)

Lemma Normalize_total (v : Vector) : exists n, Normalize v = Ok n.
Proof.
  destruct (Req_dec_T (Len v) 0) as [E | N].
  - rewrite (Normalize_zero v E). now eexists.
  - rewrite (Normalize_nonzero v N). now eexists.
Qed.

Lemma collisionNormal_total (A B diff : Vector) (dist : R) :
  exists n, collisionNormal A B diff dist = Ok n.
Proof.
  unfold collisionNormal. destruct (Req_dec_T dist 0); apply Normalize_total.
Qed.

Lemma closestPointOnSegment_nondegenerate (A B P : Vector) :
  Dot (Sub B A) (Sub B A) <> 0 ->
  closestPointOnSegment A B P =
  Ok (Add A (Mul (Sub B A)
                 (clamp01 (Dot (Sub P A) (Sub B A) / Dot (Sub B A) (Sub B A))))).
Proof.
  intros H. unfold closestPointOnSegment. now rewrite fdiv_nonzero.
Qed.

Lemma closestPointOnSegment_degenerate (A P : Vector) :
  closestPointOnSegment A A P = Err DivByZero.
Proof.
  unfold closestPointOnSegment.
  replace (Dot (Sub A A) (Sub A A)) with 0 by (unfold Dot, Sub; cbn [X Y]; ring).
  now rewrite fdiv_zero.
Qed.

Lemma closestPointOnSegment_on_line (A B P c : Vector) :
  closestPointOnSegment A B P = Ok c ->
  exists t, c = Add A (Mul (Sub B A) t).
Proof.
  unfold closestPointOnSegment. intros H.
  apply bind_Ok_inv in H. destruct H as (t & _ & H).
  injection H as <-. now eexists.
Qed.

Lemma index_getHexagonVertices (g : Game) (i : nat) :
  (i < 6)%nat -> index (getHexagonVertices g) i = Ok (hexVertex g i).
Proof.
  intros Hi.
  do 6 (destruct i as [| i]; [reflexivity |]). lia.
Qed.

(** ** What a step leaves alone *)

Lemma same_frame_refl (g : Game) : same_frame g g.
Proof. repeat split. Qed.

Lemma same_frame_trans (g1 g2 g3 : Game) :
  same_frame g1 g2 -> same_frame g2 g3 -> same_frame g1 g3.
Proof.
  unfold same_frame. intros (? & ? & ? & ? & ?) (? & ? & ? & ? & ?).
  repeat split; congruence.
Qed.

Lemma resolveEdge_frame (A B : Vector) (g g' : Game) :
  resolveEdge A B g = Ok g' -> same_frame g g'.
Proof.
  unfold resolveEdge. intros H.
  apply bind_Ok_inv in H. destruct H as (closest & _ & H).
  destruct (Rlt_dec _ _) as [Hlt | Hge].
  - apply bind_Ok_inv in H. destruct H as (normal & _ & H).
    injection H as <-. repeat split.
  - injection H as <-. apply same_frame_refl.
Qed.

Lemma resolveEdge_total (A B : Vector) (g : Game) :
  Dot (Sub B A) (Sub B A) <> 0 -> exists g', resolveEdge A B g = Ok g'.
Proof.
  intros H. unfold resolveEdge.
  rewrite (closestPointOnSegment_nondegenerate A B (ballPos g) H). cbn [bind].
  destruct (Rlt_dec _ _) as [Hlt | Hge]; [| now eexists].
  destruct (collisionNormal_total A B
              (Sub (ballPos g) (Add A (Mul (Sub B A)
                 (clamp01 (Dot (Sub (ballPos g) A) (Sub B A) / Dot (Sub B A) (Sub B A))))))
              (Len (Sub (ballPos g) (Add A (Mul (Sub B A)
                 (clamp01 (Dot (Sub (ballPos g) A) (Sub B A) / Dot (Sub B A) (Sub B A))))))))
    as (n & ->).
  cbn [bind]. now eexists.
Qed.

Lemma edge_nondegenerate (g : Game) (i : nat) :
  hexRadius g <> 0 -> (i < 6)%nat ->
  Dot (Sub (hexVertex g ((i + 1) mod 6)) (hexVertex g i))
      (Sub (hexVertex g ((i + 1) mod 6)) (hexVertex g i)) <> 0.
Proof.
  intros HR Hi. rewrite (edge_Dot g i Hi). nra.
Qed.

Lemma edgeStep_total (g0 g : Game) (i : nat) :
  hexRadius g0 <> 0 -> (i < 6)%nat ->
  exists g', edgeStep (getHexagonVertices g0) i g = Ok g' /\ same_frame g g'.
Proof.
  intros HR Hi. unfold edgeStep.
  rewrite (index_getHexagonVertices g0 i Hi).
  rewrite (index_getHexagonVertices g0 ((i + 1) mod 6)) by (apply Nat.mod_upper_bound; lia).
  cbn [bind].
  destruct (resolveEdge_total (hexVertex g0 i) (hexVertex g0 ((i + 1) mod 6)) g
              (edge_nondegenerate g0 i HR Hi)) as (g' & Hg').
  exists g'. split; [assumption | now apply resolveEdge_frame in Hg'].
Qed.

Lemma forEdges_total (g0 : Game) (idx : list nat) :
  hexRadius g0 <> 0 -> Forall (fun i => (i < 6)%nat) idx ->
  forall g, exists g', forEdges (getHexagonVertices g0) idx g = Ok g' /\ same_frame g g'.
Proof.
  intros HR. induction 1 as [| i idx Hi _ IH]; intros g.
  - exists g. split; [reflexivity | apply same_frame_refl].
  - destruct (edgeStep_total g0 g i HR Hi) as (g1 & E1 & F1).
    destruct (IH g1) as (g2 & E2 & F2).
    exists g2. split.
    + cbn [forEdges]. rewrite E1. exact E2.
    + eapply same_frame_trans; eassumption.
Qed.

Lemma seq_0_6_bounded : Forall (fun i => (i < 6)%nat) (seq 0 6).
Proof. repeat constructor; lia. Qed.

Lemma collide_total (g : Game) :
  hexRadius g <> 0 -> exists g', collide g = Ok g' /\ same_frame g g'.
Proof.
  intros HR. unfold collide. now apply forEdges_total; [| apply seq_0_6_bounded].
Qed.

Lemma integrate_hexRadius (g : Game) : hexRadius (integrate g) = hexRadius g.
Proof. reflexivity. Qed.

Lemma Update_total (g : Game) :
  hexRadius g <> 0 ->
  exists g', Update g = Ok g' /\ same_frame (integrate g) g'.
Proof.
  intros HR. unfold Update. apply collide_total. now rewrite integrate_hexRadius.
Qed.

Lemma Update_frame (g g' : Game) :
  hexRadius g <> 0 -> Update g = Ok g' -> same_frame (integrate g) g'.
Proof.
  intros HR H. destruct (Update_total g HR) as (g1 & E & F).
  rewrite E in H. injection H as <-. exact F.
Qed.

(** The parameters that no reachable state changes. *)
Lemma reachable_parameters (g : Game) :
  reachable g ->
  ballRadius g = 10 /\ hexAngularSpeed g = 1 / 2 /\ hexRadius g = 200.
Proof.
  induction 1 as [img | g g' _ (Hb & Hw & Hr) HU].
  - repeat split.
  - assert (HR : hexRadius g <> 0) by lra.
    destruct (Update_frame g g' HR HU) as (Fb & _ & Fw & Fr & _).
    cbn in Fb, Fw, Fr. repeat split; congruence.
Qed.

(** C7. In every step of a running simulation the two endpoints of each
    hexagon edge handed to [closestPointOnSegment] are distinct, the
    denominator of the projection is not zero, and the projection divides
    without a fault, whatever the point projected. *)
Theorem edge_endpoints_distinct (g : Game) (i : nat) :
  reachable g -> (i < 6)%nat ->
  exists A B,
    index (getHexagonVertices (integrate g)) i = Ok A /\
    index (getHexagonVertices (integrate g)) ((i + 1) mod 6) = Ok B /\
    A <> B /\
    Dot (Sub B A) (Sub B A) <> 0 /\
    forall P, exists c, closestPointOnSegment A B P = Ok c.
Proof.
  intros Hg Hi.
  destruct (reachable_parameters g Hg) as (_ & _ & Hr).
  assert (HR : hexRadius (integrate g) <> 0) by (rewrite integrate_hexRadius; lra).
  pose proof (edge_nondegenerate (integrate g) i HR Hi) as Hnd.
  exists (hexVertex (integrate g) i), (hexVertex (integrate g) ((i + 1) mod 6)).
  split; [now apply index_getHexagonVertices |].
  split; [apply index_getHexagonVertices, Nat.mod_upper_bound; lia |].
  split; [| split].
  - intros E. apply Hnd. rewrite <- E.
    unfold Dot, Sub; cbn [X Y]. ring.
  - exact Hnd.
  - intros P. rewrite (closestPointOnSegment_nondegenerate _ _ P Hnd). now eexists.
Qed.

Lemma edge_endpoints_distinct_witness :
  exists A B,
    index (getHexagonVertices (integrate (NewGame 0%nat))) 0%nat = Ok A /\
    index (getHexagonVertices (integrate (NewGame 0%nat))) ((0 + 1) mod 6)%nat = Ok B /\
    A <> B /\
    Dot (Sub B A) (Sub B A) <> 0 /\
    forall P, exists c, closestPointOnSegment A B P = Ok c.
Proof.
  apply (edge_endpoints_distinct (NewGame 0%nat) 0%nat).
  - apply reachable_new.
  - lia.
Defined.

(** ** The integration part of a step *)

(** C3. Before the pass over the edges a step adds [gravity * dt], with
    gravity 500, to the vertical velocity, then multiplies the whole
    velocity once by 0.99, then moves the position by the new velocity
    times [dt], then turns the hexagon by [hexAngularSpeed * dt]; the pass
    over the edges starts from the state so obtained. *)
Theorem Update_integration_order (g : Game) :
  let vel1 := mkVector (X (ballVel g)) (Y (ballVel g) + 500 * dt) in
  let vel2 := Mul vel1 (99 / 100) in
  applyGravity g = set_ballVel g vel1 /\
  applyFriction (applyGravity g) = set_ballVel g vel2 /\
  moveBall (applyFriction (applyGravity g))
    = set_ballPos (set_ballVel g vel2) (Add (ballPos g) (Mul vel2 dt)) /\
  integrate g
    = mkGame (Add (ballPos g) (Mul vel2 dt)) vel2 (ballRadius g)
             (hexRotation g + hexAngularSpeed g * dt)
             (hexAngularSpeed g) (hexRadius g) (circleImage g) /\
  Update g = collide (integrate g).
Proof.
  repeat split.
Qed.

(** C2, as the claim states it, fails: a step of the program does not
    follow a timestep of 1 second. *)
Lemma Update_ignores_caller_dt : Update (NewGame 0%nat) <> Step 1 (NewGame 0%nat).
Proof.
  intros E.
  assert (HR : hexRadius (NewGame 0%nat) <> 0) by (cbn; lra).
  destruct (Update_total (NewGame 0%nat) HR) as (g1 & E1 & (_ & F1 & _)).
  unfold Step in E.
  match type of E with _ = collide ?G => set (G0 := G) in E end.
  assert (HR0 : hexRadius G0 <> 0) by (cbn; lra).
  destruct (collide_total G0 HR0) as (g2 & E2 & (_ & F2 & _)).
  rewrite E1, E2 in E. injection E as <-.
  rewrite F1 in F2. cbn in F2. unfold dt in F2. lra.
Qed.

(** C2, amended. [Update] takes no timestep: every call is the step of the
    specification at the timestep 1/60 that is fixed inside it. *)
Theorem Update_is_Step_at_fixed_dt (g : Game) :
  dt = 1 / 60 /\ Update g = Step (1 / 60) g.
Proof.
  split; reflexivity.
Qed.

(** ** Running the simulation *)

Lemma run_reachable (img : Image) (n : nat) :
  exists g, run n (NewGame img) = Ok g /\ reachable g.
Proof.
  induction n as [| n (g & E & Hg)].
  - exists (NewGame img). split; [reflexivity | constructor].
  - destruct (reachable_parameters g Hg) as (_ & _ & Hr).
    assert (HR : hexRadius g <> 0) by lra.
    destruct (Update_total g HR) as (g' & E' & _).
    exists g'. split.
    + cbn [run]. rewrite E. exact E'.
    + now apply reachable_update with g.
Qed.

(** C8. From the initial state, [n] steps succeed and leave the hexagon
    rotated by exactly [n * hexAngularSpeed * dt], whatever happened to the
    ball on the way. *)
Theorem rotation_accumulates_linearly (img : Image) (n : nat) :
  exists g,
    run n (NewGame img) = Ok g /\
    hexRotation g = INR n * hexAngularSpeed (NewGame img) * dt.
Proof.
  induction n as [| n (g & E & Hrot)].
  - exists (NewGame img). split; [reflexivity | cbn; lra].
  - assert (Hg : reachable g).
    { destruct (run_reachable img n) as (g0 & E0 & H0). congruence. }
    destruct (reachable_parameters g Hg) as (_ & Hw & Hr).
    assert (HR : hexRadius g <> 0) by lra.
    destruct (Update_total g HR) as (g' & E' & (_ & F & _)).
    exists g'. split.
    + cbn [run]. rewrite E. exact E'.
    + rewrite F. cbn [integrate rotateHexagon set_hexRotation hexRotation
                      moveBall applyFriction applyGravity set_ballPos set_ballVel
                      hexAngularSpeed].
      rewrite Hrot, Hw, S_INR. cbn [NewGame hexAngularSpeed]. ring.
Qed.

(** ** The sprite does not influence the physics *)

Lemma resolveEdge_withImage (img : Image) (A B : Vector) (g : Game) :
  resolveEdge A B (withImage img g) = rmap (withImage img) (resolveEdge A B g).
Proof.
  unfold resolveEdge. cbn [withImage ballPos ballRadius].
  destruct (closestPointOnSegment A B (ballPos g)) as [closest | f]; [| reflexivity].
  cbn [bind]. destruct (Rlt_dec _ _) as [Hlt | Hge]; [| reflexivity].
  destruct (collisionNormal _ _ _ _) as [normal | f]; reflexivity.
Qed.

Lemma forEdges_withImage (img : Image) (hexVertices : list Vector) (idx : list nat) :
  forall g, forEdges hexVertices idx (withImage img g)
            = rmap (withImage img) (forEdges hexVertices idx g).
Proof.
  induction idx as [| i idx IH]; intros g; [reflexivity |].
  cbn [forEdges]. unfold edgeStep.
  destruct (index hexVertices i) as [A | f]; [| reflexivity].
  destruct (index hexVertices ((i + 1) mod 6)) as [B | f]; [| reflexivity].
  cbn [bind]. rewrite resolveEdge_withImage.
  destruct (resolveEdge A B g) as [g1 | f]; [| reflexivity].
  cbn [rmap bind]. apply IH.
Qed.

Lemma Update_withImage (img : Image) (g : Game) :
  Update (withImage img g) = rmap (withImage img) (Update g).
Proof.
  unfold Update, collide.
  change (integrate (withImage img g)) with (withImage img (integrate g)).
  change (getHexagonVertices (withImage img (integrate g)))
    with (getHexagonVertices (integrate g)).
  apply forEdges_withImage.
Qed.

Lemma run_withImage (img : Image) (n : nat) (g : Game) :
  run n (withImage img g) = rmap (withImage img) (run n g).
Proof.
  induction n as [| n IH]; [reflexivity |].
  cbn [run]. rewrite IH.
  destruct (run n g) as [g1 | f]; [| reflexivity].
  cbn [rmap bind]. apply Update_withImage.
Qed.

(** C9. Two simulations built by [NewGame], each with a sprite of its own,
    and advanced by the same number of steps both succeed and show the same
    ball position, ball velocity, hexagon rotation and hexagon vertices. *)
Theorem Update_deterministic (img1 img2 : Image) (n : nat) :
  exists g1 g2,
    run n (NewGame img1) = Ok g1 /\
    run n (NewGame img2) = Ok g2 /\
    ballPos g1 = ballPos g2 /\
    ballVel g1 = ballVel g2 /\
    hexRotation g1 = hexRotation g2 /\
    getHexagonVertices g1 = getHexagonVertices g2 /\
    snapshot g1 = snapshot g2.
Proof.
  destruct (run_reachable img1 n) as (g1 & E1 & _).
  exists g1, (withImage img2 g1).
  split; [exact E1 |]. split.
  - change (NewGame img2) with (withImage img2 (NewGame img1)).
    rewrite run_withImage, E1. reflexivity.
  - repeat split.
Qed.

(** ** One contact *)

Lemma resolveEdge_contact (A B : Vector) (g : Game) (closest normal : Vector) :
  closestPointOnSegment A B (ballPos g) = Ok closest ->
  Len (Sub (ballPos g) closest) < ballRadius g ->
  collisionNormal A B (Sub (ballPos g) closest) (Len (Sub (ballPos g) closest))
    = Ok normal ->
  resolveEdge A B g =
  Ok (mkGame
        (Add (ballPos g) (Mul normal (ballRadius g - Len (Sub (ballPos g) closest))))
        (bounce g closest normal)
        (ballRadius g) (hexRotation g) (hexAngularSpeed g) (hexRadius g)
        (circleImage g)).
Proof.
  intros Hc Hd Hn. unfold resolveEdge. rewrite Hc. cbn [bind].
  destruct (Rlt_dec _ _) as [_ | N]; [| contradiction].
  rewrite Hn. reflexivity.
Qed.

(** C4. At a penetrating contact where the velocity of the ball relative to
    the wall has a non-negative component along the collision normal, the
    edge's resolution leaves the velocity as it was and still moves the
    ball out by the penetration along the normal. *)
Theorem separating_contact_keeps_velocity
    (A B : Vector) (g : Game) (closest normal : Vector) :
  closestPointOnSegment A B (ballPos g) = Ok closest ->
  Len (Sub (ballPos g) closest) < ballRadius g ->
  collisionNormal A B (Sub (ballPos g) closest) (Len (Sub (ballPos g) closest))
    = Ok normal ->
  0 <= Dot (Sub (ballVel g) (wallVelocity g closest)) normal ->
  exists g',
    resolveEdge A B g = Ok g' /\
    ballVel g' = ballVel g /\
    ballPos g' = Add (ballPos g)
                     (Mul normal (ballRadius g - Len (Sub (ballPos g) closest))).
Proof.
  intros Hc Hd Hn Hdot.
  eexists. split; [apply (resolveEdge_contact A B g closest normal Hc Hd Hn) |].
  split; [| reflexivity].
  cbn [ballVel]. unfold bounce.
  destruct (Rlt_dec _ _) as [Hlt | _]; [lra | reflexivity].
Qed.

(** C5. At a penetrating contact where the ball approaches the wall, the
    new velocity is the relative velocity, with the restitution 0.9 applied
    to its normal component, moved back by the velocity of the wall, which
    is [Perp (closest - center)] times the angular speed. *)
Theorem approaching_contact_reflects
    (A B : Vector) (g : Game) (closest normal : Vector) :
  let wallVel := Mul (Perp (Sub closest hexCenter)) (hexAngularSpeed g) in
  let relVel := Sub (ballVel g) wallVel in
  closestPointOnSegment A B (ballPos g) = Ok closest ->
  Len (Sub (ballPos g) closest) < ballRadius g ->
  collisionNormal A B (Sub (ballPos g) closest) (Len (Sub (ballPos g) closest))
    = Ok normal ->
  Dot relVel normal < 0 ->
  exists g',
    resolveEdge A B g = Ok g' /\
    ballVel g' =
      Add (Sub relVel (Mul normal ((1 + 9 / 10) * Dot relVel normal))) wallVel.
Proof.
  intros wallVel relVel Hc Hd Hn Hdot.
  eexists. split; [apply (resolveEdge_contact A B g closest normal Hc Hd Hn) |].
  cbn [ballVel]. unfold bounce.
  change (wallVelocity g closest) with wallVel.
  change (Sub (ballVel g) wallVel) with relVel.
  destruct (Rlt_dec _ _) as [_ | N]; [reflexivity | contradiction].
Qed.

(** *** A contact worked out *)

Lemma clamp01_inside (t : R) : 0 <= t <= 1 -> clamp01 t = t.
Proof.
  intros [H0 H1]. unfold clamp01.
  destruct (Rlt_dec t 0) as [Hlt | _]; [lra |].
  destruct (Rgt_dec t 1) as [Hgt | _]; [lra | reflexivity].
Qed.

Lemma contact_closest (vel : Vector) :
  closestPointOnSegment contactA contactB (ballPos (contactGame vel))
  = Ok (mkVector 5 0).
Proof.
  rewrite closestPointOnSegment_nondegenerate;
    unfold contactA, contactB, contactGame, Dot, Sub; cbn [X Y ballPos]; [| lra].
  rewrite clamp01_inside by lra.
  unfold Add, Mul; cbn [X Y]. do 2 f_equal; lra.
Qed.

Lemma contact_dist : Len (Sub (mkVector 5 3) (mkVector 5 0)) = 3.
Proof.
  apply Hypot_of_square; unfold Sub; cbn [X Y]; lra.
Qed.

Lemma contact_normal :
  collisionNormal contactA contactB (Sub (mkVector 5 3) (mkVector 5 0))
                  (Len (Sub (mkVector 5 3) (mkVector 5 0)))
  = Ok (mkVector 0 1).
Proof.
  unfold collisionNormal. rewrite contact_dist.
  destruct (Req_dec_T 3 0) as [E | _]; [lra |].
  rewrite Normalize_nonzero; rewrite contact_dist; [| lra].
  unfold Sub; cbn [X Y]. do 2 f_equal; lra.
Qed.

Lemma separating_contact_keeps_velocity_witness :
  exists g',
    resolveEdge contactA contactB (contactGame (mkVector 0 0)) = Ok g' /\
    ballVel g' = mkVector 0 0 /\
    ballPos g' = Add (mkVector 5 3)
                     (Mul (mkVector 0 1)
                          (10 - Len (Sub (mkVector 5 3) (mkVector 5 0)))).
Proof.
  apply (separating_contact_keeps_velocity contactA contactB
           (contactGame (mkVector 0 0)) (mkVector 5 0) (mkVector 0 1)).
  - apply contact_closest.
  - cbn [contactGame ballPos ballRadius]. rewrite contact_dist. lra.
  - apply contact_normal.
  - unfold wallVelocity.
    unfold Dot, Perp, Mul, Sub, hexCenter, screenWidth, screenHeight.
    cbn [X Y contactGame ballVel hexAngularSpeed]. lra.
Defined.

Lemma approaching_contact_reflects_witness :
  exists g',
    resolveEdge contactA contactB (contactGame (mkVector 0 (- 300))) = Ok g' /\
    ballVel g' =
      Add (Sub (Sub (mkVector 0 (- 300))
                    (Mul (Perp (Sub (mkVector 5 0) hexCenter)) (1 / 2)))
               (Mul (mkVector 0 1)
                    ((1 + 9 / 10) *
                     Dot (Sub (mkVector 0 (- 300))
                              (Mul (Perp (Sub (mkVector 5 0) hexCenter)) (1 / 2)))
                         (mkVector 0 1))))
          (Mul (Perp (Sub (mkVector 5 0) hexCenter)) (1 / 2)).
Proof.
  apply (approaching_contact_reflects contactA contactB
           (contactGame (mkVector 0 (- 300))) (mkVector 5 0) (mkVector 0 1)).
  - apply contact_closest.
  - cbn [contactGame ballPos ballRadius]. rewrite contact_dist. lra.
  - apply contact_normal.
  - unfold Dot, Perp, Mul, Sub, hexCenter, screenWidth, screenHeight.
    cbn [X Y contactGame ballVel hexAngularSpeed]. lra.
Defined.

(** ** The fallback normal *)

Lemma closestPointOnSegment_Ok_inv (A B P c : Vector) :
  closestPointOnSegment A B P = Ok c ->
  Dot (Sub B A) (Sub B A) <> 0 /\
  c = Add A (Mul (Sub B A)
                 (clamp01 (Dot (Sub P A) (Sub B A) / Dot (Sub B A) (Sub B A)))).
Proof.
  intros H.
  destruct (Req_dec_T (Dot (Sub B A) (Sub B A)) 0) as [E | N].
  - unfold closestPointOnSegment in H. rewrite E, fdiv_zero in H. discriminate.
  - split; [exact N |].
    rewrite (closestPointOnSegment_nondegenerate A B P N) in H. now injection H.
Qed.

Lemma Len_Perp (v : Vector) : Len (Perp v) * Len (Perp v) = Dot v v.
Proof.
  rewrite Len_Dot. unfold Dot, Perp; cbn [X Y]. ring.
Qed.

Lemma sqrt3_pos : 0 < sqrt 3.
Proof. apply sqrt_lt_R0. lra. Qed.

(** The fallback normal of a segment of squared length [r * r] whose
    perpendicular has the dot product [r * r * k], with [k] positive, with
    the vectors from the points of its line to the centre. *)
Lemma fallback_normal_inward (A B P closest normal : Vector) (r k : R) :
  0 < k ->
  Dot (Sub B A) (Sub B A) = r * r ->
  (forall t, Dot (Perp (Sub B A)) (Sub hexCenter (Add A (Mul (Sub B A) t)))
             = r * r * k) ->
  closestPointOnSegment A B P = Ok closest ->
  Normalize (Perp (Sub B A)) = Ok normal ->
  0 < Dot normal (Sub hexCenter closest).
Proof.
  intros Hk Hlen Hin Hc Hn.
  destruct (closestPointOnSegment_Ok_inv _ _ _ _ Hc) as (Hnd & ->).
  rewrite Hlen in Hnd.
  pose proof (Len_Perp (Sub B A)) as HL. rewrite Hlen in HL.
  pose proof (Hypot_nonneg (X (Perp (Sub B A))) (Y (Perp (Sub B A)))) as HL0.
  fold (Len (Perp (Sub B A))) in HL0.
  assert (Hpos : 0 < Len (Perp (Sub B A))).
  { destruct HL0 as [Hlt | Heq]; [exact Hlt |].
    exfalso. apply Hnd. rewrite <- HL, <- Heq. ring. }
  rewrite Normalize_nonzero in Hn by (apply Rgt_not_eq; exact Hpos).
  injection Hn as <-.
  specialize (Hin (clamp01 (Dot (Sub P A) (Sub B A) / Dot (Sub B A) (Sub B A)))).
  set (q := Sub hexCenter _) in *.
  set (l := Len (Perp (Sub B A))) in *.
  assert (Hdot : Dot (mkVector (X (Perp (Sub B A)) / l) (Y (Perp (Sub B A)) / l)) q
                 = Dot (Perp (Sub B A)) q / l).
  { unfold Dot; cbn [X Y]. field. lra. }
  change (0 < Dot (mkVector (X (Perp (Sub B A)) / l) (Y (Perp (Sub B A)) / l)) q).
  rewrite Hdot, Hin.
  apply Rdiv_lt_0_compat; [| exact Hpos]. nra.
Qed.

(** C10. When the centre of the ball lies on the hexagon edge taken from
    vertex [i] to the next vertex, the normal of the contact is the one the
    code falls back to, the normalized perpendicular of the edge; it has a
    positive dot product with the vector from the contact point to the
    centre of the hexagon, and the loop body for that edge moves the ball by
    its radius along this normal, so that the displacement of the ball has
    a positive dot product with that vector too: the positional correction
    pushes the ball into the hexagon. *)
Theorem fallback_normal_points_inward
    (g0 g : Game) (i : nat) (A B closest : Vector) :
  (i < 6)%nat ->
  index (getHexagonVertices g0) i = Ok A ->
  index (getHexagonVertices g0) ((i + 1) mod 6) = Ok B ->
  closestPointOnSegment A B (ballPos g) = Ok closest ->
  Len (Sub (ballPos g) closest) = 0 ->
  0 < ballRadius g ->
  exists normal g',
    collisionNormal A B (Sub (ballPos g) closest) (Len (Sub (ballPos g) closest))
      = Ok normal /\
    Normalize (Perp (Sub B A)) = Ok normal /\
    0 < Dot normal (Sub hexCenter closest) /\
    edgeStep (getHexagonVertices g0) i g = Ok g' /\
    ballPos g' = Add (ballPos g) (Mul normal (ballRadius g)) /\
    ballVel g' = bounce g closest normal /\
    0 < Dot (Sub (ballPos g') (ballPos g)) (Sub hexCenter closest).
Proof.
  intros Hi HA HB Hc Hd Hr.
  destruct (collisionNormal_total A B (Sub (ballPos g) closest)
              (Len (Sub (ballPos g) closest))) as (normal & Hn).
  assert (Hfall : Normalize (Perp (Sub B A)) = Ok normal).
  { unfold collisionNormal in Hn.
    destruct (Req_dec_T _ 0) as [_ | N]; [exact Hn | contradiction]. }
  assert (Hin : 0 < Dot normal (Sub hexCenter closest)).
  { rewrite (index_getHexagonVertices g0 i Hi) in HA.
    rewrite (index_getHexagonVertices g0 ((i + 1) mod 6)) in HB
      by (apply Nat.mod_upper_bound; lia).
    assert (EA : hexVertex g0 i = A) by congruence.
    assert (EB : hexVertex g0 ((i + 1) mod 6) = B) by congruence.
    apply (fallback_normal_inward A B (ballPos g) closest normal
             (hexRadius g0) (sqrt 3 / 2)).
    - pose proof sqrt3_pos. lra.
    - rewrite <- EA, <- EB. exact (edge_Dot g0 i Hi).
    - rewrite <- EA, <- EB. exact (edge_Perp_inward g0 i Hi).
    - exact Hc.
    - exact Hfall. }
  assert (Hlt : Len (Sub (ballPos g) closest) < ballRadius g) by (rewrite Hd; exact Hr).
  pose proof (resolveEdge_contact A B g closest normal Hc Hlt Hn) as Hres.
  rewrite Hd, Rminus_0_r in Hres.
  exists normal. eexists.
  split; [exact Hn |]. split; [exact Hfall |]. split; [exact Hin |].
  split; [unfold edgeStep; rewrite HA, HB; cbn [bind]; exact Hres |].
  cbn [ballPos ballVel]. split; [reflexivity |]. split; [reflexivity |].
  replace (Dot (Sub (Add (ballPos g) (Mul normal (ballRadius g))) (ballPos g))
               (Sub hexCenter closest))
    with (ballRadius g * Dot normal (Sub hexCenter closest))
    by (unfold Dot, Sub, Add, Mul; cbn [X Y]; ring).
  apply Rmult_lt_0_compat; assumption.
Qed.

Lemma fallback_normal_points_inward_witness :
  exists normal g',
    collisionNormal (hexVertex (NewGame 0%nat) 0) (hexVertex (NewGame 0%nat) 1)
      (Sub (hexVertex (NewGame 0%nat) 0) (hexVertex (NewGame 0%nat) 0))
      (Len (Sub (hexVertex (NewGame 0%nat) 0) (hexVertex (NewGame 0%nat) 0)))
      = Ok normal /\
    Normalize (Perp (Sub (hexVertex (NewGame 0%nat) 1) (hexVertex (NewGame 0%nat) 0)))
      = Ok normal /\
    0 < Dot normal (Sub hexCenter (hexVertex (NewGame 0%nat) 0)) /\
    edgeStep (getHexagonVertices (NewGame 0%nat)) 0
             (set_ballPos (NewGame 0%nat) (hexVertex (NewGame 0%nat) 0)) = Ok g' /\
    ballPos g' = Add (hexVertex (NewGame 0%nat) 0) (Mul normal 10) /\
    ballVel g'
    = bounce (set_ballPos (NewGame 0%nat) (hexVertex (NewGame 0%nat) 0))
             (hexVertex (NewGame 0%nat) 0) normal /\
    0 < Dot (Sub (ballPos g') (hexVertex (NewGame 0%nat) 0))
            (Sub hexCenter (hexVertex (NewGame 0%nat) 0)).
Proof.
  set (g := NewGame 0%nat).
  set (A := hexVertex g 0). set (B := hexVertex g 1).
  assert (Hnd : Dot (Sub B A) (Sub B A) <> 0).
  { apply (edge_nondegenerate g 0%nat); [cbn; lra | lia]. }
  assert (Hc : closestPointOnSegment A B A = Ok A).
  { rewrite (closestPointOnSegment_nondegenerate A B A Hnd).
    replace (Dot (Sub A A) (Sub B A)) with 0 by (unfold Dot, Sub; cbn [X Y]; ring).
    unfold Rdiv. rewrite Rmult_0_l, clamp01_inside by lra.
    destruct A as [x y]. unfold Add, Mul; cbn [X Y]. do 2 f_equal; ring. }
  assert (Hd : Len (Sub A A) = 0).
  { apply Hypot_zero_iff. unfold Sub; cbn [X Y]. split; ring. }
  apply (fallback_normal_points_inward g (set_ballPos g A) 0%nat A B A);
    [lia | reflexivity | reflexivity | exact Hc | exact Hd | cbn; lra].
Defined.

(** ** No penetration after a step *)

(** The loop body for one edge leaves the ball at least its radius away
    from that edge, and it never brings the ball closer than its radius to
    another edge that the ball was clear of.  Both facts are shown in the
    coordinates of the edge that is resolved, where they are inequalities
    between polynomials; the six edges are then placed in these
    coordinates, and the pass over the edges is an induction. *)

Lemma sq_le_le (a b : R) : 0 <= b -> a * a <= b * b -> a <= b.
Proof.
  intros Hb H. destruct (Rle_lt_dec a b) as [? | Hgt]; [assumption | exfalso; nra].
Qed.

Lemma div_unit_interval (t d : R) : 0 < d -> 0 <= t <= d -> 0 <= t / d <= 1.
Proof.
  intros Hd [H0 H1]. pose proof (Rinv_0_lt_compat d Hd) as Hi.
  unfold Rdiv. split.
  - apply Rmult_le_pos; lra.
  - rewrite <- (Rinv_r d) by lra. apply Rmult_le_compat_r; lra.
Qed.

Lemma Len_sqrt_Dot (v : Vector) : Len v = sqrt (Dot v v).
Proof. reflexivity. Qed.

Lemma Len_nonneg (v : Vector) : 0 <= Len v.
Proof. apply Hypot_nonneg. Qed.

Lemma Dot_Mul_l (v z : Vector) (k : R) : Dot (Mul v k) z = k * Dot v z.
Proof. unfold Dot, Mul; cbn [X Y]. ring. Qed.

Lemma Dot_Add_l (v v' z : Vector) : Dot (Add v v') z = Dot v z + Dot v' z.
Proof. unfold Dot, Add; cbn [X Y]. ring. Qed.

Lemma Dot_Sub_l (v v' z : Vector) : Dot (Sub v v') z = Dot v z - Dot v' z.
Proof. unfold Dot, Sub; cbn [X Y]. ring. Qed.

Lemma Sub_Add_l (P v Q : Vector) : Sub (Add P v) Q = Add (Sub P Q) v.
Proof. unfold Sub, Add; cbn [X Y]. f_equal; ring. Qed.

Lemma Sub_self_Add (A v : Vector) : Sub (Add A v) A = v.
Proof. destruct v as [x y]. unfold Sub, Add; cbn [X Y]. f_equal; ring. Qed.

Lemma Dot_Perp_self (u : Vector) : Dot (Perp u) u = 0.
Proof. unfold Dot, Perp; cbn [X Y]. ring. Qed.

Lemma Dot_Perp_Perp (u v : Vector) : Dot (Perp u) (Perp v) = Dot u v.
Proof. unfold Dot, Perp; cbn [X Y]. ring. Qed.

Lemma Perp_Mul (u : Vector) (k : R) : Perp (Mul u k) = Mul (Perp u) k.
Proof. unfold Perp, Mul; cbn [X Y]. f_equal; ring. Qed.

(** *** The correction in coordinates *)

Section Core.

(** [w] stands for the square root of 3, [r] for the radius of the ball and
    [hr] for the length of the edge. *)
Variables hr r w : R.
Hypothesis Hw : w * w = 3.
Hypothesis Hw0 : 0 < w.
Hypothesis Hr : 0 < r.
Hypothesis Hhr : 4 * r <= hr.

Lemma w_bounds : 1 < w < 2.
Proof. split; nra. Qed.

(** The correction is the same seen from the other end of the edge. *)
Lemma pushed_mirror s h s' h' :
  pushed hr r s h s' h' -> pushed hr r (hr - s) h (hr - s') h'.
Proof.
  intros (cs & D & (Hcs & HD0 & HD) & HDr & Hres).
  exists (hr - cs), D. 
  assert (0 < hr) by lra.
  split; [split; [| split] | split]; try assumption.
  - unfold clampedTo. destruct Hcs as [[? ->] | [[? ->] | [? ->]]]; lra.
  - rewrite HD. ring.
  - destruct Hres as [(rho & Hrho & Hne & -> & ->) | (H0 & -> & ->)].
    + left. exists rho. repeat split; try assumption. ring.
    + right. repeat split; assumption.
Qed.

(** After the correction the ball is at least [r] away from every point
    of the edge. *)
Lemma pushed_self s h s' h' :
  pushed hr r s h s' h' ->
  forall x, 0 <= x <= hr -> r * r <= (s' - x) * (s' - x) + h' * h'.
Proof.
  intros (cs & D & (Hcs & HD0 & HD) & HDr & Hres) x Hx.
  destruct Hres as [(rho & Hrho & Hne & -> & ->) | (H0 & -> & ->)].
  - assert (HDpos : 0 < D) by lra.
    assert (Hrho0 : 0 < rho).
    { destruct (Rlt_le_dec 0 rho) as [? | Hle]; [assumption | exfalso; nra]. }
    assert (E : (cs + (s - cs) * rho - x) * (cs + (s - cs) * rho - x) + h * rho * (h * rho)
                = (cs - x) * (cs - x) + 2 * (cs - x) * (s - cs) * rho + (rho * D) * (rho * D)).
    { replace ((rho * D) * (rho * D)) with (rho * rho * (D * D)) by ring. rewrite HD. ring. }
    rewrite E, Hrho.
    assert (0 <= (cs - x) * (s - cs) * rho).
    { destruct Hcs as [[? ->] | [[? ->] | [? ->]]].
      - replace ((0 - x) * (s - 0) * rho) with (x * (- s) * rho) by ring.
        apply Rmult_le_pos; [apply Rmult_le_pos |]; lra.
      - replace ((s - x) * (s - s) * rho) with 0 by ring. lra.
      - apply Rmult_le_pos; [apply Rmult_le_pos |]; lra. }
    pose proof (Rle_0_sqr (cs - x)) as Hq. unfold Rsqr in Hq. lra.
  - pose proof (Rle_0_sqr (s - x)) as Hq. unfold Rsqr in Hq. lra.
Qed.

(** After the correction the ball is at most [r] away from the line of
    the edge. *)
Lemma pushed_height s h s' h' :
  pushed hr r s h s' h' -> h' * h' <= r * r.
Proof.
  intros (cs & D & (Hcs & HD0 & HD) & HDr & Hres).
  destruct Hres as [(rho & Hrho & Hne & -> & ->) | (H0 & -> & ->)].
  - replace (r * r) with (rho * rho * (D * D)) by (rewrite <- Hrho; ring).
    rewrite HD. pose proof (Rle_0_sqr (rho * (s - cs))) as Hsq. unfold Rsqr in Hsq. nra.
  - lra.
Qed.

(** Points across the hexagon stay out of reach. *)
Lemma pushed_far s h s' h' x y :
  pushed hr r s h s' h' -> hr * w / 2 <= y ->
  r * r <= (s' - x) * (s' - x) + (h' - y) * (h' - y).
Proof.
  intros Hp Hy. pose proof (pushed_height _ _ _ _ Hp) as Hh.
  pose proof w_bounds.
  assert (Hh' : h' <= r).
  { destruct (Rle_lt_dec h' r) as [? | Hgt]; [assumption | exfalso; nra]. }
  assert (Hy2 : 2 * r <= y).
  { assert (0 <= (hr - 4 * r) * (w - 1)) by (apply Rmult_le_pos; lra).
    assert (0 <= r * (w - 1)) by (apply Rmult_le_pos; lra).
    lra. }
  assert (0 <= (y - h' - r) * (y - h' + r)) by (apply Rmult_le_pos; lra).
  pose proof (Rle_0_sqr (s' - x)) as Hq. unfold Rsqr in Hq. lra.
Qed.

(** A ball at distance [r] inside the edge, at least [r / w] along it, is
    clear of the neighbouring edge at the first end. *)
Lemma adjacent_poly s t :
  0 <= s -> 0 <= t -> r <= w * s ->
  r * r <= (s + t / 2) * (s + t / 2) + (r - t * w / 2) * (r - t * w / 2).
Proof.
  intros Hs Ht Hws.
  assert (E : 4 * ((s + t / 2) * (s + t / 2) + (r - t * w / 2) * (r - t * w / 2) - r * r)
              = (2 * t + s - w * r) * (2 * t + s - w * r)
                + (3 * s - w * r) * (s + w * r) + t * t * (w * w - 3)) by field.
  rewrite Hw in E.
  assert (0 <= (3 * s - w * r) * (s + w * r)).
  { apply Rmult_le_pos; [| nra]. rewrite <- Hw. nra. }
  pose proof (Rle_0_sqr (2 * t + s - w * r)) as Hq. unfold Rsqr in Hq. lra.
Qed.

(** A ball inside the edge and clear of the neighbouring edge at the
    first end is at least [r / w] along the edge. *)
Lemma adjacent_reach s h :
  0 <= s -> 0 <= h < r ->
  (forall t, 0 <= t <= hr ->
             r * r <= (s + t / 2) * (s + t / 2) + (h - t * w / 2) * (h - t * w / 2)) ->
  r <= w * s.
Proof.
  intros Hs Hh Hyp. pose proof w_bounds as Hwb.
  destruct (Rle_lt_dec s (w * h)) as [Hle | Hlt].
  - assert (Ht : 0 <= (w * h - s) / 2 <= hr) by nra.
    specialize (Hyp _ Ht).
    assert (E : 16 * ((s + (w * h - s) / 2 / 2) * (s + (w * h - s) / 2 / 2)
                      + (h - (w * h - s) / 2 * w / 2) * (h - (w * h - s) / 2 * w / 2))
                = 4 * ((w * s + h) * (w * s + h))
                  + (w * w - 3) * (- 3 * s * s - 2 * s * w * h - h * h + (w * w - 3) * h * h))
      by field.
    rewrite Hw in E.
    assert (H2 : 2 * r <= w * s + h).
    { apply sq_le_le; nra. }
    lra.
  - assert (Ht : 0 <= 0 <= hr) by lra.
    specialize (Hyp _ Ht).
    assert (Hh2 : 3 * (h * h) <= s * s).
    { rewrite <- Hw.
      assert (0 <= w * h) by (apply Rmult_le_pos; lra).
      assert (0 <= (s - w * h) * (s + w * h)) by (apply Rmult_le_pos; lra).
      lra. }
    apply sq_le_le; [nra |].
    replace (w * s * (w * s)) with (w * w * (s * s)) by ring. rewrite Hw. nra.
Qed.

(** The correction keeps the ball clear of the neighbouring edge at the
    first end, whose points are [(- t / 2, t * w / 2)]. *)
Lemma pushed_adjacent s h s' h' :
  pushed hr r s h s' h' ->
  (forall t, 0 <= t <= hr ->
             r * r <= (s + t / 2) * (s + t / 2) + (h - t * w / 2) * (h - t * w / 2)) ->
  forall t, 0 <= t <= hr ->
            r * r <= (s' + t / 2) * (s' + t / 2) + (h' - t * w / 2) * (h' - t * w / 2).
Proof.
  intros (cs & D & (Hcs & HD0 & HD) & HDr & Hres) Hyp t Ht.
  pose proof w_bounds as Hwb.
  destruct Hcs as [[Hs ->] | [[Hs ->] | [Hs ->]]].
  - exfalso.
    assert (H0 : 0 <= 0 <= hr) by lra. specialize (Hyp _ H0).
    assert (D * D < r * r) by nra. nra.
  - replace ((s - s) * (s - s) + h * h) with (h * h) in HD by ring.
    destruct Hres as [(rho & Hrho & Hne & -> & ->) | (H0 & -> & ->)].
    + replace (s + (s - s) * rho) with s by ring.
      assert (HDpos : 0 < D) by lra.
      assert (Hrho0 : 0 < rho).
      { destruct (Rlt_le_dec 0 rho) as [? | Hle]; [assumption | exfalso; nra]. }
      destruct (Rle_lt_dec 0 h) as [Hh | Hh].
      * assert (hD : h = D) by (apply Rle_antisym; apply sq_le_le; nra).
        rewrite hD, (Rmult_comm D rho), Hrho.
        apply adjacent_poly; try lra.
        apply (adjacent_reach s h); [lra | lra | exact Hyp].
      * assert (hD : - h = D) by (apply Rle_antisym; apply sq_le_le; nra).
        replace (h * rho) with (- r) by (rewrite <- Hrho, <- hD; ring).
        assert (0 <= t * w) by nra.
        pose proof (Rle_0_sqr (s + t / 2)) as Hq. unfold Rsqr in Hq. nra.
    + assert (h = 0) by nra. subst h.
      apply adjacent_poly; try lra.
      apply (adjacent_reach s 0); [lra | lra | exact Hyp].
  - assert (Hs' : hr <= s').
    { destruct Hres as [(rho & Hrho & Hne & -> & _) | (H0 & -> & _)]; [| lra].
      assert (HDpos : 0 < D) by lra.
      assert (Hrho0 : 0 < rho).
      { destruct (Rlt_le_dec 0 rho) as [? | Hle]; [assumption | exfalso; nra]. }
      nra. }
    pose proof (Rle_0_sqr (h' - t * w / 2)) as Hq. unfold Rsqr in Hq.
    assert (r * r <= (s' + t / 2) * (s' + t / 2)) by nra.
    lra.
Qed.

Lemma footDist_awayAt_self s h cs D :
  footDist hr s h cs D -> r <= D -> awayAt r 0 0 hr 0 s h.
Proof.
  intros (Hcs & HD0 & HD) HrD l Hl.
  assert (Hrr : r * r <= D * D) by nra.
  assert (Hx : 0 <= hr * l <= hr) by nra.
  assert (Hmin : (s - cs) * (s - cs) <= (s - hr * l) * (s - hr * l)).
  { destruct Hcs as [[? ->] | [[? ->] | [? ->]]].
    - assert (0 <= (hr * l) * (hr * l - 2 * s)) by (apply Rmult_le_pos; lra). lra.
    - pose proof (Rle_0_sqr (s - hr * l)) as Q. unfold Rsqr in Q. lra.
    - assert (0 <= (hr - hr * l) * (2 * s - hr - hr * l)) by (apply Rmult_le_pos; lra).
      lra. }
  replace (s - (0 + (hr - 0) * l)) with (s - hr * l) by ring.
  replace (h - (0 + (0 - 0) * l)) with h by ring.
  lra.
Qed.

Lemma pushed_awayAt_self s h s' h' :
  pushed hr r s h s' h' -> awayAt r 0 0 hr 0 s' h'.
Proof.
  intros Hp l Hl.
  assert (Hx : 0 <= hr * l <= hr) by nra.
  pose proof (pushed_self s h s' h' Hp (hr * l) Hx) as H.
  replace (s' - (0 + (hr - 0) * l)) with (s' - hr * l) by ring.
  replace (h' - (0 + (0 - 0) * l)) with h' by ring.
  exact H.
Qed.

Lemma pushed_keeps_awayAt a b c d s h s' h' :
  edgePlace hr w a b c d ->
  pushed hr r s h s' h' ->
  awayAt r a b c d s h -> awayAt r a b c d s' h'.
Proof.
  intros Hplace Hp Haway l Hl.
  assert (Hhr0 : 0 < hr) by lra.
  destruct Hplace as [(Hb & Hd) | [(-> & -> & -> & ->) | (-> & -> & -> & ->)]].
  - apply (pushed_far s h s' h'); [exact Hp |].
    replace (b + (d - b) * l) with (b * (1 - l) + d * l) by ring.
    assert (0 <= (b - hr * w / 2) * (1 - l)) by (apply Rmult_le_pos; lra).
    assert (0 <= (d - hr * w / 2) * l) by (apply Rmult_le_pos; lra).
    lra.
  - assert (Ht : 0 <= hr * (1 - l) <= hr) by nra.
    pose proof (pushed_adjacent s h s' h' Hp) as H.
    replace (s' - (- hr / 2 + (0 - - hr / 2) * l)) with (s' + hr * (1 - l) / 2) by field.
    replace (h' - (hr * w / 2 + (0 - hr * w / 2) * l)) with (h' - hr * (1 - l) * w / 2)
      by field.
    apply H; [| exact Ht].
    intros t Ht'.
    assert (Hl' : 0 <= 1 - t / hr <= 1).
    { pose proof (div_unit_interval t hr Hhr0 Ht'). lra. }
    specialize (Haway _ Hl').
    replace (s - (- hr / 2 + (0 - - hr / 2) * (1 - t / hr))) with (s + t / 2)
      in Haway by (field; lra).
    replace (h - (hr * w / 2 + (0 - hr * w / 2) * (1 - t / hr))) with (h - t * w / 2)
      in Haway by (field; lra).
    exact Haway.
  - assert (Ht : 0 <= hr * l <= hr) by nra.
    pose proof (pushed_adjacent _ _ _ _ (pushed_mirror s h s' h' Hp)) as H.
    replace ((s' - (hr + (3 * hr / 2 - hr) * l)) * (s' - (hr + (3 * hr / 2 - hr) * l)))
      with ((hr - s' + hr * l / 2) * (hr - s' + hr * l / 2)) by field.
    replace (h' - (0 + (hr * w / 2 - 0) * l)) with (h' - hr * l * w / 2) by field.
    apply H; [| exact Ht].
    intros t Ht'.
    assert (Hl' : 0 <= t / hr <= 1) by exact (div_unit_interval t hr Hhr0 Ht').
    specialize (Haway _ Hl').
    replace ((s - (hr + (3 * hr / 2 - hr) * (t / hr))) * (s - (hr + (3 * hr / 2 - hr) * (t / hr))))
      with ((hr - s + t / 2) * (hr - s + t / 2)) in Haway by (field; lra).
    replace (h - (0 + (hr * w / 2 - 0) * (t / hr))) with (h - t * w / 2)
      in Haway by (field; lra).
    exact Haway.
Qed.

End Core.

(** *** The loop body in the coordinates of its edge *)

Section EdgeFrame.

Variables A B u : Vector.
Variable hr : R.
Hypothesis Hu : Dot u u = 1.
Hypothesis Hhr : 0 < hr.
Hypothesis HAB : Sub B A = Mul u hr.

(** Coordinates of a point along the edge and across it. *)
Let cS (P : Vector) : R := Dot (Sub P A) u.
Let cH (P : Vector) : R := Dot (Sub P A) (Perp u).

Lemma frame_dist (P Q : Vector) :
  Dot (Sub P Q) (Sub P Q)
  = (cS P - cS Q) * (cS P - cS Q) + (cH P - cH Q) * (cH P - cH Q).
Proof.
  transitivity (Dot (Sub P Q) (Sub P Q) * Dot u u).
  - rewrite Hu. ring.
  - unfold cS, cH, Dot, Sub, Perp; cbn [X Y]. ring.
Qed.

Lemma frame_on_edge (l : R) :
  cS (Add A (Mul (Sub B A) l)) = hr * l /\ cH (Add A (Mul (Sub B A) l)) = 0.
Proof.
  unfold cS, cH. rewrite Sub_self_Add, HAB, !Dot_Mul_l, Hu.
  replace (Dot u (Perp u)) with 0 by (unfold Dot, Perp; cbn [X Y]; ring).
  split; ring.
Qed.

Lemma edge_Dot_frame : Dot (Sub B A) (Sub B A) = hr * hr.
Proof.
  rewrite HAB, Dot_Mul_l. unfold Dot in *. cbn [Mul X Y].
  transitivity (hr * hr * (X u * X u + Y u * Y u)); [ring | rewrite Hu; ring].
Qed.

Lemma clamp01_cases (t : R) :
  t < 0 /\ clamp01 t = 0 \/ 0 <= t <= 1 /\ clamp01 t = t \/ 1 < t /\ clamp01 t = 1.
Proof.
  unfold clamp01.
  destruct (Rlt_dec t 0) as [Hlt | Hge].
  - left. split; [assumption |]. destruct (Rgt_dec 0 1); [lra | reflexivity].
  - destruct (Rgt_dec t 1) as [Hgt | Hle].
    + right; right. split; [lra | reflexivity].
    + right; left. split; [lra | reflexivity].
Qed.

(** The closest point of the edge, in coordinates. *)
Lemma closest_in_frame (P c : Vector) :
  closestPointOnSegment A B P = Ok c ->
  exists l, 0 <= l <= 1 /\ c = Add A (Mul (Sub B A) l) /\
            clampedTo hr (cS P) (hr * l).
Proof.
  intros Hc.
  destruct (closestPointOnSegment_Ok_inv _ _ _ _ Hc) as (Hnd & ->).
  set (t := Dot (Sub P A) (Sub B A) / Dot (Sub B A) (Sub B A)).
  assert (Ht : t = cS P / hr).
  { unfold t. rewrite edge_Dot_frame, HAB.
    replace (Dot (Sub P A) (Mul u hr)) with (cS P * hr)
      by (unfold cS, Dot, Mul; cbn [X Y]; ring).
    field. lra. }
  exists (clamp01 t). 
  assert (Hs : cS P = t * hr) by (rewrite Ht; field; lra).
  destruct (clamp01_cases t) as [[H1 ->] | [[H1 ->] | [H1 ->]]].
  - split; [lra |]. split; [reflexivity |]. left. split; [nra | ring].
  - split; [lra |]. split; [reflexivity |]. right; left. split; [nra | lra].
  - split; [lra |]. split; [reflexivity |]. right; right. split; [nra | ring].
Qed.

Lemma Dot_Normalize (v z n : Vector) :
  Len v <> 0 -> Normalize v = Ok n -> Dot n z = Dot v z / Len v.
Proof.
  intros Hl Hn. rewrite (Normalize_nonzero v Hl) in Hn. injection Hn as <-.
  unfold Dot; cbn [X Y]. field. exact Hl.
Qed.

Lemma cS_Add (P v : Vector) : cS (Add P v) = cS P + Dot v u.
Proof. unfold cS. rewrite Sub_Add_l, Dot_Add_l. reflexivity. Qed.

Lemma cH_Add (P v : Vector) : cH (Add P v) = cH P + Dot v (Perp u).
Proof. unfold cH. rewrite Sub_Add_l, Dot_Add_l. reflexivity. Qed.

Lemma Len_Perp_edge : Len (Perp (Sub B A)) = hr.
Proof.
  pose proof (Len_Perp (Sub B A)) as HL. rewrite edge_Dot_frame in HL.
  pose proof (Len_nonneg (Perp (Sub B A))) as H0.
  apply Rle_antisym; apply sq_le_le; lra.
Qed.

(** The loop body for this edge, in coordinates: either the ball is at
    least its radius away from the edge and stays, or it is pushed. *)
Lemma resolveEdge_in_frame (g g' : Game) :
  resolveEdge A B g = Ok g' ->
  (exists cs D,
      footDist hr (cS (ballPos g)) (cH (ballPos g)) cs D /\
      ballRadius g <= D /\ ballPos g' = ballPos g)
  \/ pushed hr (ballRadius g) (cS (ballPos g)) (cH (ballPos g))
                              (cS (ballPos g')) (cH (ballPos g')).
Proof.
  unfold resolveEdge. intros H.
  apply bind_Ok_inv in H. destruct H as (c & Hc & H).
  destruct (closest_in_frame _ _ Hc) as (l & Hl & -> & Hcl).
  destruct (frame_on_edge l) as (EcS & EcH).
  set (P := ballPos g) in *.
  set (c := Add A (Mul (Sub B A) l)) in *.
  set (D := Len (Sub P c)) in *.
  assert (HD0 : 0 <= D) by apply Len_nonneg.
  assert (HD : D * D = (cS P - hr * l) * (cS P - hr * l) + cH P * cH P).
  { unfold D. rewrite Len_Dot, (frame_dist P c), EcS, EcH. ring. }
  assert (Hfoot : footDist hr (cS P) (cH P) (hr * l) D) by (repeat split; assumption).
  destruct (Rlt_dec D (ballRadius g)) as [Hlt | Hge].
  - right.
    apply bind_Ok_inv in H. destruct H as (n & Hn & H).
    injection H as <-. cbn [ballPos set_ballVel set_ballPos].
    rewrite cS_Add, cH_Add, !Dot_Mul_l.
    exists (hr * l), D. split; [exact Hfoot |]. split; [exact Hlt |].
    unfold collisionNormal in Hn.
    destruct (Req_dec_T D 0) as [E0 | N0].
    + right. split; [exact E0 |].
      assert (HL : Len (Perp (Sub B A)) <> 0) by (rewrite Len_Perp_edge; lra).
      rewrite !(Dot_Normalize _ _ _ HL Hn), Len_Perp_edge, HAB, Perp_Mul, !Dot_Mul_l.
      rewrite Dot_Perp_self, Dot_Perp_Perp, Hu.
      assert (Hh : cH P = 0).
      { pose proof (Rle_0_sqr (cS P - hr * l)) as Q1.
        pose proof (Rle_0_sqr (cH P)) as Q2. unfold Rsqr in Q1, Q2.
        assert (Hh2 : cH P * cH P = 0) by (rewrite E0 in HD; lra).
        apply Rmult_integral in Hh2. now destruct Hh2. }
      rewrite Hh, E0. split; field; lra.
    + left. exists (ballRadius g / D).
      split; [field; exact N0 |]. split; [exact N0 |].
      rewrite !(Dot_Normalize _ _ _ N0 Hn).
      fold D.
      replace (Dot (Sub P c) u) with (cS P - hr * l)
        by (rewrite <- EcS; unfold cS; unfold Dot, Sub; cbn [X Y]; ring).
      replace (Dot (Sub P c) (Perp u)) with (cH P)
        by (rewrite <- (Rminus_0_r (cH P)), <- EcH; unfold cH;
            unfold Dot, Sub; cbn [X Y]; ring).
      split; field; exact N0.
  - left. injection H as <-.
    exists (hr * l), D. split; [exact Hfoot |]. split; [lra | reflexivity].
Qed.

Lemma cS_on_segment (AE BE : Vector) (l : R) :
  cS (Add AE (Mul (Sub BE AE) l)) = cS AE + (cS BE - cS AE) * l.
Proof.
  rewrite cS_Add, Dot_Mul_l. unfold cS, Dot, Sub; cbn [X Y]. ring.
Qed.

Lemma cH_on_segment (AE BE : Vector) (l : R) :
  cH (Add AE (Mul (Sub BE AE) l)) = cH AE + (cH BE - cH AE) * l.
Proof.
  rewrite cH_Add, Dot_Mul_l. unfold cH, Dot, Sub; cbn [X Y]. ring.
Qed.

Lemma away_awayAt (r : R) (AE BE P : Vector) :
  away r AE BE P <->
  awayAt r (cS AE) (cH AE) (cS BE) (cH BE) (cS P) (cH P).
Proof.
  unfold away, awayAt.
  split; intros H l Hl; specialize (H l Hl);
    rewrite frame_dist, cS_on_segment, cH_on_segment in *; exact H.
Qed.

Lemma frame_ends : cS A = 0 /\ cH A = 0 /\ cS B = hr /\ cH B = 0.
Proof.
  unfold cS, cH. rewrite HAB, !Dot_Mul_l, Hu.
  replace (Dot u (Perp u)) with 0 by (unfold Dot, Perp; cbn [X Y]; ring).
  replace (Sub A A) with (mkVector 0 0) by (unfold Sub; f_equal; ring).
  unfold Dot; cbn [X Y]. repeat split; ring.
Qed.

Variables r w : R.
Hypothesis Hw : w * w = 3.
Hypothesis Hw0 : 0 < w.
Hypothesis Hr : 0 < r.
Hypothesis Hrhr : 4 * r <= hr.

(** After the loop body for an edge the ball is clear of that edge. *)
Lemma resolveEdge_away_self (g g' : Game) :
  ballRadius g = r -> resolveEdge A B g = Ok g' -> away r A B (ballPos g').
Proof.
  intros Hrad H. apply away_awayAt.
  destruct frame_ends as (-> & -> & -> & ->).
  destruct (resolveEdge_in_frame g g' H) as [(cs & D & Hfoot & HrD & ->) | Hp].
  - apply (footDist_awayAt_self hr r Hr Hrhr _ _ cs D Hfoot). now rewrite <- Hrad.
  - rewrite Hrad in Hp. exact (pushed_awayAt_self hr r Hr Hrhr _ _ _ _ Hp).
Qed.

(** The loop body for an edge keeps the ball clear of every other edge. *)
Lemma resolveEdge_away_other (AE BE : Vector) (g g' : Game) :
  edgePlace hr w (cS AE) (cH AE) (cS BE) (cH BE) ->
  ballRadius g = r -> resolveEdge A B g = Ok g' ->
  away r AE BE (ballPos g) -> away r AE BE (ballPos g').
Proof.
  intros Hplace Hrad H Haway. apply away_awayAt. apply away_awayAt in Haway.
  destruct (resolveEdge_in_frame g g' H) as [(cs & D & Hfoot & HrD & ->) | Hp].
  - exact Haway.
  - rewrite Hrad in Hp.
    exact (pushed_keeps_awayAt hr r w Hw Hw0 Hr Hrhr _ _ _ _ _ _ _ _ Hplace Hp Haway).
Qed.

End EdgeFrame.

(** ** The hexagon in the coordinates of one of its edges *)

Lemma sqrt3_sqr : sqrt 3 * sqrt 3 = 3.
Proof. apply sqrt_sqrt. lra. Qed.

Lemma hexVertex_S (g : Game) (n : nat) :
  Sub (hexVertex g (S n)) hexCenter = turn60 (Sub (hexVertex g n) hexCenter).
Proof.
  unfold hexVertex, turn60, Sub; cbn [X Y].
  set (a := hexRotation g + INR n * 2 * PI / 6).
  replace (hexRotation g + INR (S n) * 2 * PI / 6)
    with (a + PI / 3) by (unfold a; rewrite S_INR; field).
  rewrite cos_plus, sin_plus, cos_PI3, sin_PI3. f_equal; field.
Qed.

Lemma Add_Sub_self (C P : Vector) : Add C (Sub P C) = P.
Proof. destruct P as [x y]. unfold Add, Sub; cbn [X Y]. f_equal; ring. Qed.

Lemma hexVertex_iter (g : Game) (n d : nat) :
  hexVertex g (n + d)
  = Add hexCenter (Nat.iter d turn60 (Sub (hexVertex g n) hexCenter)).
Proof.
  induction d as [| d IH].
  - rewrite Nat.add_0_r. symmetry. apply Add_Sub_self.
  - rewrite Nat.add_succ_r.
    change (Nat.iter (S d) turn60 (Sub (hexVertex g n) hexCenter))
      with (turn60 (Nat.iter d turn60 (Sub (hexVertex g n) hexCenter))).
    rewrite <- (Sub_self_Add hexCenter (Nat.iter d turn60 _)), <- IH, <- hexVertex_S.
    symmetry. apply Add_Sub_self.
Qed.

Lemma turn60_six (p : Vector) : Nat.iter 6 turn60 p = p.
Proof.
  destruct p as [x y]. cbn [Nat.iter nat_rect]. unfold turn60; cbn [X Y].
  pose proof sqrt3_sqr as Hw. set (w := sqrt 3) in *. clearbody w.
  assert (Hi : 2 * / 2 = 1) by lra. unfold Rdiv. f_equal; nsatz.
Qed.

Lemma hexVertex_period (g : Game) (n : nat) : hexVertex g (n + 6) = hexVertex g n.
Proof.
  rewrite hexVertex_iter, turn60_six. apply Add_Sub_self.
Qed.

Lemma hexVertex_next (g : Game) (k : nat) :
  (k < 6)%nat -> hexVertex g ((k + 1) mod 6) = hexVertex g (k + 1).
Proof.
  intros Hk. destruct (Nat.eq_dec k 5) as [-> | N].
  - exact (eq_sym (hexVertex_period g 0)).
  - rewrite Nat.mod_small by lia. reflexivity.
Qed.

Lemma other_edge_offset (g : Game) (k j : nat) :
  (k < 6)%nat -> (j < 6)%nat -> j <> k ->
  exists d, (1 <= d <= 5)%nat /\
            hexVertex g j = hexVertex g (k + d) /\
            hexVertex g ((j + 1) mod 6) = hexVertex g (k + S d).
Proof.
  intros Hk Hj Hjk. rewrite (hexVertex_next g j Hj).
  destruct (lt_dec k j) as [Hlt | Hge].
  - exists (j - k)%nat. split; [lia |].
    replace (k + (j - k))%nat with j by lia.
    replace (k + S (j - k))%nat with (j + 1)%nat by lia. split; reflexivity.
  - exists (j + 6 - k)%nat. split; [lia |].
    replace (k + (j + 6 - k))%nat with (j + 6)%nat by lia.
    replace (k + S (j + 6 - k))%nat with (j + 1 + 6)%nat by lia.
    rewrite !hexVertex_period. split; reflexivity.
Qed.

Section HexFrame.

Variable p : Vector.
Variable hr : R.
Hypothesis Hhr : 0 < hr.
Hypothesis Hp : Dot p p = hr * hr.

Let A := Add hexCenter p.
Let B := Add hexCenter (turn60 p).
Let u := Mul (Sub B A) (/ hr).
Let Q (d : nat) := Add hexCenter (Nat.iter d turn60 p).

Lemma hex_frame_edge : Sub B A = Mul u hr.
Proof.
  unfold u, Mul, Sub; cbn [X Y]. f_equal; field; lra.
Qed.

Ltac hex_coordinates :=
  unfold Q, u, A, B, Dot, Sub, Add, Mul, Perp, turn60 in *;
  destruct p as [x y]; cbn [X Y Nat.iter nat_rect] in *;
  pose proof sqrt3_sqr as Hw; set (w := sqrt 3) in *; clearbody w;
  assert (Hinv : hr * / hr = 1) by (apply Rinv_r; lra);
  set (ihr := / hr) in *; clearbody ihr;
  assert (Hi : 2 * / 2 = 1) by lra; unfold Rdiv;
  set (half := / 2) in *; clearbody half;
  nsatz.

Lemma hex_frame_unit : Dot u u = 1.
Proof. hex_coordinates. Qed.

Lemma hex_frame_1 : Dot (Sub (Q 1) A) u = hr /\ Dot (Sub (Q 1) A) (Perp u) = 0.
Proof. split; hex_coordinates. Qed.

Lemma hex_frame_2 :
  Dot (Sub (Q 2) A) u = 3 * hr / 2 /\ Dot (Sub (Q 2) A) (Perp u) = hr * sqrt 3 / 2.
Proof. split; hex_coordinates. Qed.

Lemma hex_frame_3 :
  Dot (Sub (Q 3) A) u = hr /\ Dot (Sub (Q 3) A) (Perp u) = hr * sqrt 3.
Proof. split; hex_coordinates. Qed.

Lemma hex_frame_4 :
  Dot (Sub (Q 4) A) u = 0 /\ Dot (Sub (Q 4) A) (Perp u) = hr * sqrt 3.
Proof. split; hex_coordinates. Qed.

Lemma hex_frame_5 :
  Dot (Sub (Q 5) A) u = - hr / 2 /\ Dot (Sub (Q 5) A) (Perp u) = hr * sqrt 3 / 2.
Proof. split; hex_coordinates. Qed.

Lemma hex_frame_6 : Dot (Sub (Q 6) A) u = 0 /\ Dot (Sub (Q 6) A) (Perp u) = 0.
Proof. split; hex_coordinates. Qed.

Lemma hex_edgePlace (d : nat) :
  (1 <= d <= 5)%nat ->
  edgePlace hr (sqrt 3)
            (Dot (Sub (Q d) A) u) (Dot (Sub (Q d) A) (Perp u))
            (Dot (Sub (Q (S d)) A) u) (Dot (Sub (Q (S d)) A) (Perp u)).
Proof.
  intros Hd.
  destruct hex_frame_1 as (S1 & H1). destruct hex_frame_2 as (S2 & H2).
  destruct hex_frame_3 as (S3 & H3). destruct hex_frame_4 as (S4 & H4).
  destruct hex_frame_5 as (S5 & H5). destruct hex_frame_6 as (S6 & H6).
  pose proof sqrt3_pos as Hw.
  assert (Hpos : 0 < hr * sqrt 3) by (apply Rmult_lt_0_compat; lra).
  destruct d as [| [| [| [| [| [| d]]]]]]; try lia.
  - right; right. rewrite S1, H1, S2, H2. repeat split.
  - left. rewrite H2, H3. split; lra.
  - left. rewrite H3, H4. split; lra.
  - left. rewrite H4, H5. split; lra.
  - right; left. rewrite S5, H5, S6, H6. repeat split.
Qed.

Variable r : R.
Hypothesis Hr : 0 < r.
Hypothesis Hrhr : 4 * r <= hr.

Lemma hex_resolve_self (g g' : Game) :
  ballRadius g = r -> resolveEdge A B g = Ok g' -> away r A B (ballPos g').
Proof.
  apply (resolveEdge_away_self A B u hr hex_frame_unit Hhr hex_frame_edge r Hr Hrhr).
Qed.

Lemma hex_resolve_other (d : nat) (g g' : Game) :
  (1 <= d <= 5)%nat ->
  ballRadius g = r -> resolveEdge A B g = Ok g' ->
  away r (Q d) (Q (S d)) (ballPos g) -> away r (Q d) (Q (S d)) (ballPos g').
Proof.
  intros Hd.
  apply (resolveEdge_away_other A B u hr hex_frame_unit Hhr hex_frame_edge
           r (sqrt 3) sqrt3_sqr sqrt3_pos Hr Hrhr).
  exact (hex_edgePlace d Hd).
Qed.

End HexFrame.

(** ** The pass over the six edges *)

Lemma hexVertex_radius (g : Game) (n : nat) :
  Dot (Sub (hexVertex g n) hexCenter) (Sub (hexVertex g n) hexCenter)
  = hexRadius g * hexRadius g.
Proof.
  unfold hexVertex, Dot, Sub; cbn [X Y].
  set (a := hexRotation g + INR n * 2 * PI / 6).
  pose proof (sin2_cos2 a) as H. unfold Rsqr in H.
  transitivity (hexRadius g * hexRadius g * (sin a * sin a + cos a * cos a)).
  - ring.
  - rewrite H. ring.
Qed.

Section Pass.

Variable g0 : Game.
Variable r : R.
Hypothesis Hr : 0 < r.
Hypothesis Hrhr : 4 * r <= hexRadius g0.

Let edgeA (j : nat) : Vector := hexVertex g0 j.
Let edgeB (j : nat) : Vector := hexVertex g0 ((j + 1) mod 6).

Lemma edgeStep_inv (k : nat) (g g' : Game) :
  (k < 6)%nat ->
  edgeStep (getHexagonVertices g0) k g = Ok g' ->
  resolveEdge (edgeA k) (edgeB k) g = Ok g'.
Proof.
  intros Hk. unfold edgeStep.
  rewrite (index_getHexagonVertices g0 k Hk).
  rewrite (index_getHexagonVertices g0 ((k + 1) mod 6))
    by (apply Nat.mod_upper_bound; lia).
  cbn [bind]. trivial.
Qed.

Lemma edgeStep_away_self (k : nat) (g g' : Game) :
  (k < 6)%nat -> ballRadius g = r ->
  edgeStep (getHexagonVertices g0) k g = Ok g' ->
  away r (edgeA k) (edgeB k) (ballPos g').
Proof.
  intros Hk Hrad H. apply (edgeStep_inv k g g' Hk) in H.
  unfold edgeA, edgeB in *. rewrite (hexVertex_next g0 k Hk) in *.
  rewrite (hexVertex_iter g0 k 1), <- (Add_Sub_self hexCenter (hexVertex g0 k)) in H |- *.
  rewrite Sub_self_Add in H |- *.
  assert (Hhr : 0 < hexRadius g0) by lra.
  exact (hex_resolve_self _ (hexRadius g0) Hhr (hexVertex_radius g0 k) r Hr Hrhr g g' Hrad H).
Qed.

Lemma edgeStep_away_other (k j : nat) (g g' : Game) :
  (k < 6)%nat -> (j < 6)%nat -> j <> k -> ballRadius g = r ->
  edgeStep (getHexagonVertices g0) k g = Ok g' ->
  away r (edgeA j) (edgeB j) (ballPos g) ->
  away r (edgeA j) (edgeB j) (ballPos g').
Proof.
  intros Hk Hj Hjk Hrad H. apply (edgeStep_inv k g g' Hk) in H.
  destruct (other_edge_offset g0 k j Hk Hj Hjk) as (d & Hd & EA & EB).
  unfold edgeA, edgeB in *. rewrite EA, EB. clear EA EB.
  rewrite (hexVertex_next g0 k Hk) in H.
  rewrite (hexVertex_iter g0 k 1), <- (Add_Sub_self hexCenter (hexVertex g0 k)) in H.
  rewrite Sub_self_Add in H.
  rewrite !(hexVertex_iter g0 k).
  assert (Hhr : 0 < hexRadius g0) by lra.
  exact (hex_resolve_other _ (hexRadius g0) Hhr (hexVertex_radius g0 k) r Hr Hrhr
           d g g' Hd Hrad H).
Qed.

Lemma edgeStep_ballRadius (k : nat) (g g' : Game) :
  (k < 6)%nat ->
  edgeStep (getHexagonVertices g0) k g = Ok g' -> ballRadius g' = ballRadius g.
Proof.
  intros Hk H. apply (edgeStep_inv k g g' Hk) in H.
  now destruct (resolveEdge_frame _ _ _ _ H).
Qed.

(** After the pass over the edges [idx], the ball is clear of each of
    them, and of every edge it was clear of before. *)
Lemma forEdges_away (idx : list nat) :
  Forall (fun k => (k < 6)%nat) idx ->
  forall g g' j,
    ballRadius g = r ->
    forEdges (getHexagonVertices g0) idx g = Ok g' ->
    (j < 6)%nat ->
    In j idx \/ away r (edgeA j) (edgeB j) (ballPos g) ->
    away r (edgeA j) (edgeB j) (ballPos g').
Proof.
  induction 1 as [| k idx Hk _ IH]; intros g g' j Hrad H Hj Hc.
  - injection H as <-. destruct Hc as [[] | Hc]. exact Hc.
  - cbn [forEdges] in H. apply bind_Ok_inv in H. destruct H as (g1 & H1 & H).
    assert (Hrad1 : ballRadius g1 = r).
    { rewrite (edgeStep_ballRadius k g g1 Hk H1). exact Hrad. }
    apply (IH g1 g' j Hrad1 H Hj).
    destruct (Nat.eq_dec j k) as [-> | Hjk].
    + right. exact (edgeStep_away_self k g g1 Hk Hrad H1).
    + destruct Hc as [[E | Hin] | Hc].
      * congruence.
      * left. exact Hin.
      * right. exact (edgeStep_away_other k j g g1 Hk Hj Hjk Hrad H1 Hc).
Qed.

End Pass.

Lemma In_seq_0_6 (j : nat) : (j < 6)%nat -> In j (seq 0 6).
Proof. intros Hj. apply in_seq. lia. Qed.

(** After the pass over the six edges the ball is clear of all of them. *)
Lemma collide_away (g g' : Game) (j : nat) :
  0 < ballRadius g -> 4 * ballRadius g <= hexRadius g ->
  collide g = Ok g' -> (j < 6)%nat ->
  away (ballRadius g) (hexVertex g j) (hexVertex g ((j + 1) mod 6)) (ballPos g').
Proof.
  intros Hr Hrhr H Hj.
  apply (forEdges_away g (ballRadius g) Hr Hrhr (seq 0 6) seq_0_6_bounded
           g g' j eq_refl H Hj).
  left. now apply In_seq_0_6.
Qed.

Lemma away_closest (r : R) (A B P c : Vector) :
  0 <= r -> away r A B P -> closestPointOnSegment A B P = Ok c ->
  r <= Len (Sub P c).
Proof.
  intros Hr Haway Hc.
  destruct (closestPointOnSegment_Ok_inv _ _ _ _ Hc) as (_ & ->).
  set (t := Dot (Sub P A) (Sub B A) / Dot (Sub B A) (Sub B A)).
  assert (Hl : 0 <= clamp01 t <= 1).
  { destruct (clamp01_cases t) as [[? ->] | [[? ->] | [? ->]]]; lra. }
  specialize (Haway _ Hl). rewrite <- Len_Dot in Haway.
  apply sq_le_le; [apply Len_nonneg | exact Haway].
Qed.

(** C1. In every reachable state a step completes, and after it the ball
    centre is, for each of the six hexagon edges, at least the ball radius
    minus the tolerance away from the closest point of that edge (in exact
    arithmetic, for every tolerance that is not negative). *)
Theorem Update_no_penetration (g : Game) (eps : R) :
  reachable g -> 0 <= eps ->
  exists g',
    Update g = Ok g' /\
    forall i, (i < 6)%nat ->
      exists A B closest,
        index (getHexagonVertices g') i = Ok A /\
        index (getHexagonVertices g') ((i + 1) mod 6) = Ok B /\
        closestPointOnSegment A B (ballPos g') = Ok closest /\
        ballRadius g' - eps <= Len (Sub (ballPos g') closest).
Proof.
  intros Hg Heps.
  destruct (reachable_parameters g Hg) as (Hb & _ & Hh).
  assert (HR : hexRadius g <> 0) by lra.
  destruct (Update_total g HR) as (g' & HU & (Fb & Frot & _ & Fh & _)).
  exists g'. split; [exact HU |]. intros i Hi.
  assert (Hv : forall n, hexVertex g' n = hexVertex (integrate g) n).
  { intros n. unfold hexVertex. now rewrite Frot, Fh. }
  exists (hexVertex g' i), (hexVertex g' ((i + 1) mod 6)).
  assert (HR' : hexRadius g' <> 0) by (rewrite Fh, integrate_hexRadius; exact HR).
  pose proof (edge_nondegenerate g' i HR' Hi) as Hnd.
  eexists. split; [now apply index_getHexagonVertices |].
  split; [apply index_getHexagonVertices, Nat.mod_upper_bound; lia |].
  split; [apply (closestPointOnSegment_nondegenerate _ _ _ Hnd) |].
  assert (Hrad : ballRadius (integrate g) = 10) by exact Hb.
  assert (Hhex : hexRadius (integrate g) = 200) by exact Hh.
  assert (Haway : away (ballRadius (integrate g))
                       (hexVertex g' i) (hexVertex g' ((i + 1) mod 6)) (ballPos g')).
  { rewrite !Hv. apply collide_away; [lra | lra | exact HU | exact Hi]. }
  assert (H0 : 0 <= ballRadius (integrate g)) by lra.
  pose proof (away_closest _ _ _ _ _ H0 Haway
                (closestPointOnSegment_nondegenerate _ _ (ballPos g') Hnd)) as Hdist.
  rewrite Fb. lra.
Qed.

Lemma Update_no_penetration_witness :
  exists g',
    Update (NewGame 0%nat) = Ok g' /\
    forall i, (i < 6)%nat ->
      exists A B closest,
        index (getHexagonVertices g') i = Ok A /\
        index (getHexagonVertices g') ((i + 1) mod 6) = Ok B /\
        closestPointOnSegment A B (ballPos g') = Ok closest /\
        ballRadius g' - 0 <= Len (Sub (ballPos g') closest).
Proof.
  apply (Update_no_penetration (NewGame 0%nat) 0).
  - apply reachable_new.
  - lra.
Defined.

(** * Further properties of the code *)

(** ** More on the vector kernel *)

Lemma Vector_eq (v u : Vector) : X v = X u -> Y v = Y u -> v = u.
Proof. destruct v as [a b], u as [c d]; cbn [X Y]; intros -> ->; reflexivity. Qed.

Lemma Len_le_of_Dot (a b : Vector) : Dot a a <= Dot b b -> Len a <= Len b.
Proof.
  intros H. apply sq_le_le; [apply Len_nonneg | now rewrite !Len_Dot].
Qed.

Lemma Dot_zero_inv (v : Vector) : Dot v v = 0 -> v = mkVector 0 0.
Proof.
  intros H. rewrite <- Len_Dot in H.
  assert (HL : Len v = 0) by (apply Rmult_integral in H; now destruct H).
  apply Hypot_zero_iff in HL. destruct v as [x y]; cbn [X Y] in HL.
  destruct HL as [-> ->]. reflexivity.
Qed.

Lemma segment_nondegenerate (A B : Vector) : A <> B -> Dot (Sub B A) (Sub B A) <> 0.
Proof.
  intros HAB H. apply HAB. apply Dot_zero_inv in H.
  injection H as Hx Hy. apply Vector_eq; lra.
Qed.

(** X1. [closestPointOnSegment] divides by zero exactly when the two ends of
    the segment coincide, whatever the point projected; it has no other
    fault. *)
Theorem closestPointOnSegment_fault_iff (A B P : Vector) :
  (closestPointOnSegment A B P = Err DivByZero <-> A = B) /\
  closestPointOnSegment A B P <> Err IndexOutOfRange.
Proof.
  split; [split |].
  - intros H. destruct (Req_dec_T (Dot (Sub B A) (Sub B A)) 0) as [E | N].
    + apply Dot_zero_inv in E. injection E as Hx Hy. apply Vector_eq; lra.
    + rewrite (closestPointOnSegment_nondegenerate A B P N) in H. discriminate.
  - intros ->. apply closestPointOnSegment_degenerate.
  - destruct (Req_dec_T (Dot (Sub B A) (Sub B A)) 0) as [E | N].
    + unfold closestPointOnSegment. rewrite E, fdiv_zero. discriminate.
    + rewrite (closestPointOnSegment_nondegenerate A B P N). discriminate.
Qed.

Lemma segment_distance_gap (A B P : Vector) (t l : R) :
  Dot (Sub B A) (Sub B A) <> 0 ->
  t = Dot (Sub P A) (Sub B A) / Dot (Sub B A) (Sub B A) ->
  Dot (Sub P (Add A (Mul (Sub B A) l))) (Sub P (Add A (Mul (Sub B A) l)))
  - Dot (Sub P (Add A (Mul (Sub B A) (clamp01 t))))
        (Sub P (Add A (Mul (Sub B A) (clamp01 t))))
  = Dot (Sub B A) (Sub B A) * ((l - clamp01 t) * (l + clamp01 t - 2 * t)).
Proof.
  intros HN Ht.
  assert (E : Dot (Sub P A) (Sub B A) = t * Dot (Sub B A) (Sub B A))
    by (rewrite Ht; field; exact HN).
  set (c := clamp01 t).
  transitivity (Dot (Sub B A) (Sub B A) * (l * l - c * c)
                - 2 * (l - c) * Dot (Sub P A) (Sub B A)).
  - unfold Dot, Sub, Add, Mul; cbn [X Y]. ring.
  - rewrite E. ring.
Qed.

(** X2. The point that [closestPointOnSegment] returns lies on the segment
    from [A] to [B], and no point of the segment is closer to [P]. *)
Theorem closestPointOnSegment_is_closest (A B P c : Vector) :
  closestPointOnSegment A B P = Ok c ->
  (exists t, 0 <= t <= 1 /\ c = Add A (Mul (Sub B A) t)) /\
  forall l, 0 <= l <= 1 ->
    Len (Sub P c) <= Len (Sub P (Add A (Mul (Sub B A) l))).
Proof.
  intros Hc. destruct (closestPointOnSegment_Ok_inv _ _ _ _ Hc) as (HN & ->).
  set (t := Dot (Sub P A) (Sub B A) / Dot (Sub B A) (Sub B A)).
  assert (Hcl : 0 <= clamp01 t <= 1).
  { destruct (clamp01_cases t) as [[? ->] | [[? ->] | [? ->]]]; lra. }
  split; [exists (clamp01 t); split; [exact Hcl | reflexivity] |].
  intros l Hl. apply Len_le_of_Dot.
  pose proof (segment_distance_gap A B P t l HN eq_refl) as Hgap.
  assert (HNpos : 0 < Dot (Sub B A) (Sub B A)).
  { pose proof (Len_nonneg (Sub B A)) as H0. rewrite <- Len_Dot in *. nra. }
  assert (0 <= (l - clamp01 t) * (l + clamp01 t - 2 * t)).
  { destruct (clamp01_cases t) as [[? ->] | [[? ->] | [? ->]]].
    - replace ((l - 0) * (l + 0 - 2 * t)) with (l * (l - 2 * t)) by ring.
      apply Rmult_le_pos; lra.
    - replace ((l - t) * (l + t - 2 * t)) with ((l - t) * (l - t)) by ring.
      apply Rle_0_sqr.
    - replace ((l - 1) * (l + 1 - 2 * t)) with ((1 - l) * (2 * t - 1 - l)) by ring.
      apply Rmult_le_pos; lra. }
  assert (0 <= Dot (Sub B A) (Sub B A) * ((l - clamp01 t) * (l + clamp01 t - 2 * t)))
    by (apply Rmult_le_pos; lra).
  lra.
Qed.

Lemma closestPointOnSegment_is_closest_witness :
  (exists t, 0 <= t <= 1 /\ mkVector 5 0 = Add contactA (Mul (Sub contactB contactA) t)) /\
  forall l, 0 <= l <= 1 ->
    Len (Sub (mkVector 5 3) (mkVector 5 0))
    <= Len (Sub (mkVector 5 3) (Add contactA (Mul (Sub contactB contactA) l))).
Proof.
  exact (closestPointOnSegment_is_closest contactA contactB (mkVector 5 3) (mkVector 5 0)
           (contact_closest (mkVector 0 0))).
Defined.

(** X3. A point of a segment with distinct ends is its own closest point on
    the segment. *)
Theorem closestPointOnSegment_fixes_segment (A B : Vector) (t : R) :
  A <> B -> 0 <= t <= 1 ->
  closestPointOnSegment A B (Add A (Mul (Sub B A) t)) = Ok (Add A (Mul (Sub B A) t)).
Proof.
  intros HAB Ht. pose proof (segment_nondegenerate A B HAB) as HN.
  rewrite (closestPointOnSegment_nondegenerate _ _ _ HN).
  replace (Dot (Sub (Add A (Mul (Sub B A) t)) A) (Sub B A) / Dot (Sub B A) (Sub B A))
    with t.
  - now rewrite clamp01_inside.
  - rewrite Sub_self_Add, Dot_Mul_l. field. exact HN.
Qed.

Lemma closestPointOnSegment_fixes_segment_witness :
  closestPointOnSegment contactA contactB
    (Add contactA (Mul (Sub contactB contactA) (1 / 2)))
  = Ok (Add contactA (Mul (Sub contactB contactA) (1 / 2))).
Proof.
  apply (closestPointOnSegment_fixes_segment contactA contactB (1 / 2)).
  - unfold contactA, contactB. intros H. injection H as H. lra.
  - lra.
Defined.

Lemma clamp01_flip (t : R) : clamp01 (1 - t) = 1 - clamp01 t.
Proof.
  destruct (clamp01_cases t) as [[? ->] | [[? ->] | [? ->]]];
    destruct (clamp01_cases (1 - t)) as [[? ->] | [[? ->] | [? ->]]]; lra.
Qed.

(** X4. [closestPointOnSegment] gives the same result when the two ends of
    the segment are exchanged. *)
Theorem closestPointOnSegment_sym (A B P : Vector) :
  closestPointOnSegment A B P = closestPointOnSegment B A P.
Proof.
  destruct (Req_dec_T (Dot (Sub B A) (Sub B A)) 0) as [E | HN].
  - apply Dot_zero_inv in E. injection E as Hx Hy.
    assert (A = B) by (apply Vector_eq; lra). subst B. reflexivity.
  - assert (HN' : Dot (Sub A B) (Sub A B) <> 0).
    { replace (Dot (Sub A B) (Sub A B)) with (Dot (Sub B A) (Sub B A))
        by (unfold Dot, Sub; cbn [X Y]; ring). exact HN. }
    rewrite (closestPointOnSegment_nondegenerate A B P HN).
    rewrite (closestPointOnSegment_nondegenerate B A P HN').
    replace (Dot (Sub P B) (Sub A B) / Dot (Sub A B) (Sub A B))
      with (1 - Dot (Sub P A) (Sub B A) / Dot (Sub B A) (Sub B A)).
    + rewrite clamp01_flip. f_equal.
      apply Vector_eq; unfold Add, Mul, Sub; cbn [X Y]; ring.
    + replace (Dot (Sub A B) (Sub A B)) with (Dot (Sub B A) (Sub B A))
        by (unfold Dot, Sub; cbn [X Y]; ring).
      replace (Dot (Sub P B) (Sub A B))
        with (Dot (Sub B A) (Sub B A) - Dot (Sub P A) (Sub B A))
        by (unfold Dot, Sub; cbn [X Y]; ring).
      field. exact HN.
Qed.

Lemma Normalize_Dot_unit (v n : Vector) :
  Len v <> 0 -> Normalize v = Ok n -> Dot n n = 1.
Proof.
  intros Hl Hn. rewrite (Normalize_nonzero v Hl) in Hn. injection Hn as <-.
  transitivity (Dot v v / (Len v * Len v)).
  - unfold Dot; cbn [X Y]. field. exact Hl.
  - rewrite <- Len_Dot. field. exact Hl.
Qed.

(** X5. [Normalize] of a vector that is not zero is a vector of length 1
    which, multiplied by the length of the input, gives the input back. *)
Theorem Normalize_unit (v : Vector) :
  Len v <> 0 ->
  exists n, Normalize v = Ok n /\ Len n = 1 /\ Mul n (Len v) = v.
Proof.
  intros Hl. destruct (Normalize_total v) as (n & Hn).
  exists n. split; [exact Hn |]. split.
  - pose proof (Normalize_Dot_unit v n Hl Hn) as H1.
    apply Hypot_of_square; [lra |]. unfold Dot in H1. lra.
  - rewrite (Normalize_nonzero v Hl) in Hn. injection Hn as <-.
    apply Vector_eq; unfold Mul; cbn [X Y]; field; exact Hl.
Qed.

Lemma Normalize_unit_witness :
  exists n, Normalize (mkVector 3 4) = Ok n /\ Len n = 1
            /\ Mul n (Len (mkVector 3 4)) = mkVector 3 4.
Proof.
  apply (Normalize_unit (mkVector 3 4)).
  replace (Len (mkVector 3 4)) with 5
    by (symmetry; apply Hypot_of_square; cbn [X Y]; lra).
  lra.
Defined.

(** X6. [Perp] is a quarter turn: the result is orthogonal to the input and
    as long, dot products are kept, two turns negate the vector and four
    turns give it back. *)
Theorem Perp_quarter_turn (v u : Vector) :
  Dot (Perp v) v = 0 /\
  Len (Perp v) = Len v /\
  Dot (Perp v) (Perp u) = Dot v u /\
  Perp (Perp v) = Mul v (- 1) /\
  Perp (Perp (Perp (Perp v))) = v.
Proof.
  split; [apply Dot_Perp_self |]. split.
  - unfold Len, Hypot, Perp; cbn [X Y]. f_equal. ring.
  - split; [apply Dot_Perp_Perp |].
    split; apply Vector_eq; unfold Perp, Mul; cbn [X Y]; ring.
Qed.

Lemma Len_Mul (v : Vector) (k : R) : Len (Mul v k) = Rabs k * Len v.
Proof.
  apply Hypot_of_square.
  - apply Rmult_le_pos; [apply Rabs_pos | apply Len_nonneg].
  - transitivity (Rabs k * Rabs k * (Len v * Len v)); [| ring].
    rewrite Len_Dot. replace (Rabs k * Rabs k) with (k * k).
    + unfold Dot, Mul; cbn [X Y]. ring.
    + pose proof (Rsqr_abs k) as H. unfold Rsqr in H. exact H.
Qed.

Lemma Cauchy_Schwarz_sqr (v u : Vector) :
  Dot v u * Dot v u <= Dot v v * Dot u u.
Proof.
  assert (E : Dot v v * Dot u u - Dot v u * Dot v u
              = (X v * Y u - Y v * X u) * (X v * Y u - Y v * X u))
    by (unfold Dot; ring).
  pose proof (Rle_0_sqr (X v * Y u - Y v * X u)) as H. unfold Rsqr in H. lra.
Qed.

Lemma Dot_le_Len (v u : Vector) : Rabs (Dot v u) <= Len v * Len u.
Proof.
  apply sq_le_le.
  - apply Rmult_le_pos; apply Len_nonneg.
  - replace (Rabs (Dot v u) * Rabs (Dot v u)) with (Dot v u * Dot v u)
      by (pose proof (Rsqr_abs (Dot v u)) as H; unfold Rsqr in H; exact H).
    replace (Len v * Len u * (Len v * Len u)) with ((Len v * Len v) * (Len u * Len u))
      by ring.
    rewrite !Len_Dot. apply Cauchy_Schwarz_sqr.
Qed.

(** X7. [Len] is a norm for [Add], [Sub], [Mul] and [Dot]: it is not
    negative, zero only on the zero vector, scales by the absolute value of
    the factor, bounds the dot product, and obeys the triangle inequality. *)
Theorem Len_norm (v u : Vector) (k : R) :
  0 <= Len v /\
  (Len v = 0 <-> v = mkVector 0 0) /\
  Len (Mul v k) = Rabs k * Len v /\
  Rabs (Dot v u) <= Len v * Len u /\
  Len (Add v u) <= Len v + Len u /\
  Len (Sub v u) = Len (Sub u v).
Proof.
  split; [apply Len_nonneg |]. split.
  { split.
    - intros H. apply Hypot_zero_iff in H. destruct H. now apply Vector_eq.
    - intros ->. apply Hypot_zero_iff. now split. }
  split; [apply Len_Mul |]. split; [apply Dot_le_Len |]. split.
  - apply sq_le_le.
    + pose proof (Len_nonneg v). pose proof (Len_nonneg u). lra.
    + rewrite Len_Dot.
      replace (Dot (Add v u) (Add v u)) with (Dot v v + 2 * Dot v u + Dot u u)
        by (unfold Dot, Add; cbn [X Y]; ring).
      pose proof (Dot_le_Len v u) as HCS.
      pose proof (Rle_abs (Dot v u)) as Ha.
      pose proof (Len_Dot v) as Hv. pose proof (Len_Dot u) as Hu.
      nra.
  - unfold Len, Hypot, Sub; cbn [X Y]. f_equal. ring.
Qed.

(** ** The hexagon *)

Lemma Rabs_sqr (x : R) : Rabs x * Rabs x = x * x.
Proof. pose proof (Rsqr_abs x) as H. unfold Rsqr in H. now symmetry. Qed.

Lemma Len_of_Dot (v : Vector) (l : R) : Dot v v = l * l -> Len v = Rabs l.
Proof.
  intros H. apply Hypot_of_square; [apply Rabs_pos |].
  rewrite Rabs_sqr. exact H.
Qed.

Lemma turn60_three (p : Vector) : Nat.iter 3 turn60 p = Mul p (- 1).
Proof.
  destruct p as [x y]. cbn [Nat.iter nat_rect]. unfold turn60, Mul; cbn [X Y].
  pose proof sqrt3_sqr as Hw. set (w := sqrt 3) in *. clearbody w.
  assert (Hi : 2 * / 2 = 1) by lra. unfold Rdiv.
  set (half := / 2) in *. clearbody half.
  f_equal; nsatz.
Qed.

Lemma hexVertex_opposite (g : Game) (i : nat) :
  (i < 6)%nat ->
  Add (hexVertex g i) (hexVertex g ((i + 3) mod 6)) = Mul hexCenter 2.
Proof.
  intros Hi.
  assert (E : hexVertex g ((i + 3) mod 6) = hexVertex g (i + 3)).
  { destruct (lt_dec (i + 3) 6) as [Hlt | Hge].
    - now rewrite Nat.mod_small.
    - replace (i + 3)%nat with ((i + 3 - 6) + 6)%nat at 2 by lia.
      rewrite hexVertex_period. f_equal.
      replace (i + 3)%nat with ((i + 3 - 6) + 1 * 6)%nat at 1 by lia.
      rewrite Nat.Div0.mod_add. apply Nat.mod_small. lia. }
  rewrite E, hexVertex_iter, turn60_three.
  apply Vector_eq; unfold Add, Mul, Sub; cbn [X Y]; ring.
Qed.

(** X8. [getHexagonVertices] returns six vertices; each lies at the
    distance [|hexRadius|] from the centre, each edge (also the one from the
    last vertex to the first) has the length [|hexRadius|], and vertex
    [i + 3] is the mirror image of vertex [i] in the centre. *)
Theorem getHexagonVertices_regular (g : Game) :
  length (getHexagonVertices g) = 6%nat /\
  forall i, (i < 6)%nat ->
    exists A B C,
      index (getHexagonVertices g) i = Ok A /\
      index (getHexagonVertices g) ((i + 1) mod 6) = Ok B /\
      index (getHexagonVertices g) ((i + 3) mod 6) = Ok C /\
      Len (Sub A hexCenter) = Rabs (hexRadius g) /\
      Len (Sub B A) = Rabs (hexRadius g) /\
      Add A C = Mul hexCenter 2.
Proof.
  split; [reflexivity |]. intros i Hi.
  exists (hexVertex g i), (hexVertex g ((i + 1) mod 6)), (hexVertex g ((i + 3) mod 6)).
  split; [now apply index_getHexagonVertices |].
  split; [apply index_getHexagonVertices, Nat.mod_upper_bound; lia |].
  split; [apply index_getHexagonVertices, Nat.mod_upper_bound; lia |].
  split; [apply Len_of_Dot, hexVertex_radius |].
  split; [apply Len_of_Dot, (edge_Dot g i Hi) |].
  now apply hexVertex_opposite.
Qed.

(** X9. In every reachable state all the vertices of the hexagon lie in the
    window whose size [Layout] reports. *)
Theorem hexagon_inside_window (g : Game) (outsideWidth outsideHeight : Z) :
  reachable g ->
  Forall (fun v => 0 <= X v <= IZR (fst (Layout g outsideWidth outsideHeight)) /\
                   0 <= Y v <= IZR (snd (Layout g outsideWidth outsideHeight)))
         (getHexagonVertices g).
Proof.
  intros Hg. destruct (reachable_parameters g Hg) as (_ & _ & Hr).
  unfold getHexagonVertices. apply Forall_map, Forall_forall. intros i _.
  unfold hexVertex, hexCenter, screenWidth, screenHeight, Layout; cbn [X Y fst snd].
  rewrite Hr.
  set (a := hexRotation g + INR i * 2 * PI / 6).
  pose proof (COS_bound a) as [Hc1 Hc2]. pose proof (SIN_bound a) as [Hs1 Hs2].
  lra.
Qed.

Lemma hexagon_inside_window_witness :
  Forall (fun v => 0 <= X v <= IZR (fst (Layout (NewGame 0%nat) 1024 768)) /\
                   0 <= Y v <= IZR (snd (Layout (NewGame 0%nat) 1024 768)))
         (getHexagonVertices (NewGame 0%nat)).
Proof.
  apply (hexagon_inside_window (NewGame 0%nat) 1024 768). apply reachable_new.
Defined.

(** ** Faults and invariants of a step *)

Lemma forEdges_Err_head (hexVertices : list Vector) (i : nat) (idx : list nat)
      (g : Game) (f : fault) :
  edgeStep hexVertices i g = Err f -> forEdges hexVertices (i :: idx) g = Err f.
Proof. intros H. cbn [forEdges]. now rewrite H. Qed.

Lemma collide_degenerate (g : Game) : hexRadius g = 0 -> collide g = Err DivByZero.
Proof.
  intros Hr. unfold collide. change (seq 0 6) with (0%nat :: seq 1 5).
  apply forEdges_Err_head. unfold edgeStep.
  rewrite (index_getHexagonVertices g 0) by lia.
  rewrite (index_getHexagonVertices g ((0 + 1) mod 6)) by (apply Nat.mod_upper_bound; lia).
  cbn [bind]. unfold resolveEdge, closestPointOnSegment.
  rewrite (edge_Dot g 0) by lia. rewrite Hr, Rmult_0_l, fdiv_zero. reflexivity.
Qed.

(** X10. A step divides by zero exactly when the radius of the hexagon is
    zero, and it never indexes the vertices out of range. *)
Theorem Update_fault_iff (g : Game) :
  (Update g = Err DivByZero <-> hexRadius g = 0) /\
  Update g <> Err IndexOutOfRange.
Proof.
  destruct (Req_dec_T (hexRadius g) 0) as [E | N].
  - assert (H : Update g = Err DivByZero).
    { unfold Update. apply collide_degenerate. now rewrite integrate_hexRadius. }
    rewrite H. split; [split; intros _; [exact E | reflexivity] | discriminate].
  - destruct (Update_total g N) as (g' & H & _). rewrite H.
    split; [split; [discriminate | contradiction] | discriminate].
Qed.

(** X11. A step of a hexagon whose radius is not zero succeeds; it keeps the
    radius of the ball, the angular speed, the radius of the hexagon and the
    sprite, turns the hexagon by [hexAngularSpeed * dt] whatever the
    collisions, and the vertices of the new state are those the collisions
    were resolved against. *)
Theorem Update_keeps_parameters (g : Game) :
  hexRadius g <> 0 ->
  exists g',
    Update g = Ok g' /\
    ballRadius g' = ballRadius g /\
    hexAngularSpeed g' = hexAngularSpeed g /\
    hexRadius g' = hexRadius g /\
    circleImage g' = circleImage g /\
    hexRotation g' = hexRotation g + hexAngularSpeed g * dt /\
    getHexagonVertices g' = getHexagonVertices (integrate g).
Proof.
  intros N.
  destruct (Update_total g N) as (g' & H & (Fb & Frot & Fw & Fh & Fi)).
  exists g'. repeat split; try assumption.
  unfold getHexagonVertices, hexVertex. now rewrite Frot, Fh.
Qed.

Lemma Update_keeps_parameters_witness :
  exists g',
    Update (NewGame 0%nat) = Ok g' /\
    ballRadius g' = ballRadius (NewGame 0%nat) /\
    hexAngularSpeed g' = hexAngularSpeed (NewGame 0%nat) /\
    hexRadius g' = hexRadius (NewGame 0%nat) /\
    circleImage g' = circleImage (NewGame 0%nat) /\
    hexRotation g' = hexRotation (NewGame 0%nat) + hexAngularSpeed (NewGame 0%nat) * dt /\
    getHexagonVertices g' = getHexagonVertices (integrate (NewGame 0%nat)).
Proof.
  apply (Update_keeps_parameters (NewGame 0%nat)). cbn [NewGame hexRadius]. lra.
Defined.

(** X12. The integration never takes the vertical speed beyond 825: a
    vertical speed of at most 825 stays at most 825, the horizontal speed
    does not grow, and the ball then moves by at most 825/60 vertically. *)
Theorem integrate_terminal_velocity (g : Game) :
  Rabs (Y (ballVel g)) <= 825 ->
  Rabs (Y (ballVel (integrate g))) <= 825 /\
  Rabs (X (ballVel (integrate g))) <= Rabs (X (ballVel g)) /\
  Rabs (Y (ballPos (integrate g)) - Y (ballPos g)) <= 825 / 60.
Proof.
  intros H.
  assert (H' : - 825 <= Y (ballVel g) <= 825).
  { pose proof (Rle_abs (Y (ballVel g))) as H1.
    pose proof (Rle_abs (- Y (ballVel g))) as H2. rewrite Rabs_Ropp in H2. lra. }
  cbn [integrate rotateHexagon moveBall applyFriction applyGravity
       set_hexRotation set_ballPos set_ballVel ballVel ballPos Mul Add X Y].
  unfold gravity, dt, airFriction.
  split; [apply Rabs_le; lra |]. split.
  - rewrite Rabs_mult, (Rabs_right (99 / 100)) by lra.
    pose proof (Rabs_pos (X (ballVel g))). lra.
  - apply Rabs_le. lra.
Qed.

Lemma integrate_terminal_velocity_witness :
  Rabs (Y (ballVel (integrate (NewGame 0%nat)))) <= 825 /\
  Rabs (X (ballVel (integrate (NewGame 0%nat)))) <= Rabs (X (ballVel (NewGame 0%nat))) /\
  Rabs (Y (ballPos (integrate (NewGame 0%nat))) - Y (ballPos (NewGame 0%nat))) <= 825 / 60.
Proof.
  apply (integrate_terminal_velocity (NewGame 0%nat)).
  cbn [NewGame ballVel Y]. rewrite Rabs_R0. lra.
Defined.

(** ** More on one contact *)

Lemma Len_zero_inv (v : Vector) : Len v = 0 -> v = mkVector 0 0.
Proof.
  intros H. apply Hypot_zero_iff in H. destruct H. now apply Vector_eq.
Qed.

(** The collision normal is a unit vector, along [P - closest] when the
    two differ and across the edge when they do not. *)
Lemma collisionNormal_unit (A B P c n : Vector) :
  closestPointOnSegment A B P = Ok c ->
  collisionNormal A B (Sub P c) (Len (Sub P c)) = Ok n ->
  Dot n n = 1 /\ Sub P c = Mul n (Len (Sub P c)) /\
  (Len (Sub P c) = 0 -> Dot n (Sub B A) = 0).
Proof.
  intros Hc Hn. unfold collisionNormal in Hn.
  destruct (Req_dec_T (Len (Sub P c)) 0) as [E | N].
  - destruct (closestPointOnSegment_Ok_inv _ _ _ _ Hc) as (HN & _).
    assert (HL : Len (Perp (Sub B A)) <> 0).
    { intros H0. apply HN. rewrite <- Len_Perp, H0. ring. }
    split; [exact (Normalize_Dot_unit _ _ HL Hn) |]. split.
    + rewrite E, (Len_zero_inv _ E). apply Vector_eq; unfold Mul; cbn [X Y]; ring.
    + intros _. rewrite (Dot_Normalize _ (Sub B A) _ HL Hn), Dot_Perp_self.
      unfold Rdiv. ring.
  - split; [exact (Normalize_Dot_unit _ _ N Hn) |]. split; [| contradiction].
    rewrite (Normalize_nonzero _ N) in Hn. injection Hn as <-.
    apply Vector_eq; unfold Mul, Sub; cbn [X Y]; field; exact N.
Qed.

Lemma Len_Mul_unit (n : Vector) (k : R) : Dot n n = 1 -> 0 <= k -> Len (Mul n k) = k.
Proof.
  intros Hn Hk. apply Hypot_of_square; [exact Hk |].
  transitivity (k * k * Dot n n); [unfold Dot, Mul; cbn [X Y]; ring | rewrite Hn; ring].
Qed.

(** X13. A penetrating contact moves the ball by exactly the penetration
    and leaves its centre exactly the radius away from the contact point.
    When the centre lies on the edge, or at least one unit off the contact
    point (so that the direction of the normal does not hinge on the
    rounding of a difference of nearly equal numbers), the contact point is
    still the closest point of the edge after the move. *)
Theorem contact_leaves_ball_touching (A B : Vector) (g : Game) (closest : Vector) :
  closestPointOnSegment A B (ballPos g) = Ok closest ->
  Len (Sub (ballPos g) closest) < ballRadius g ->
  exists g',
    resolveEdge A B g = Ok g' /\
    Len (Sub (ballPos g') closest) = ballRadius g /\
    Len (Sub (ballPos g') (ballPos g)) = ballRadius g - Len (Sub (ballPos g) closest) /\
    (Len (Sub (ballPos g) closest) = 0 \/ 1 <= Len (Sub (ballPos g) closest) ->
     closestPointOnSegment A B (ballPos g') = Ok closest).
Proof.
  intros Hc Hd.
  set (P := ballPos g) in *. set (D := Len (Sub P closest)) in *.
  destruct (collisionNormal_total A B (Sub P closest) D) as (n & Hn).
  destruct (collisionNormal_unit A B P closest n Hc Hn) as (Hu & Hdiff & Hflat).
  fold D in Hdiff, Hflat.
  assert (HD0 : 0 <= D) by apply Len_nonneg.
  eexists. split; [exact (resolveEdge_contact A B g closest n Hc Hd Hn) |].
  cbn [ballPos]. fold P. fold D.
  assert (E1 : Sub (Add P (Mul n (ballRadius g - D))) closest = Mul n (ballRadius g)).
  { rewrite Sub_Add_l, Hdiff. apply Vector_eq; unfold Add, Mul; cbn [X Y]; ring. }
  split; [rewrite E1; apply Len_Mul_unit; [exact Hu | lra] |].
  split.
  { replace (Sub (Add P (Mul n (ballRadius g - D))) P) with (Mul n (ballRadius g - D))
      by (apply Vector_eq; unfold Sub, Add, Mul; cbn [X Y]; ring).
    apply Len_Mul_unit; [exact Hu | lra]. }
  intros Hreg.
  destruct (closestPointOnSegment_Ok_inv _ _ _ _ Hc) as (HN & Ec).
  rewrite (closestPointOnSegment_nondegenerate _ _ _ HN).
  set (e := Sub B A) in *. set (N := Dot e e) in *.
  set (t := Dot (Sub P A) e / N) in *.
  assert (Ht : Dot (Sub P A) e = t * N) by (unfold t; field; exact HN).
  assert (Hk : D * Dot n e = N * (t - clamp01 t)).
  { rewrite <- Dot_Mul_l, <- Hdiff, Ec, Dot_Sub_l.
    replace (Dot P e - Dot (Add A (Mul e (clamp01 t))) e)
      with (Dot (Sub P A) e - clamp01 t * N)
      by (unfold N, Dot, Sub, Add, Mul; cbn [X Y]; ring).
    rewrite Ht. ring. }
  assert (Ht' : Dot (Sub (Add P (Mul n (ballRadius g - D))) A) e / N
                = clamp01 t + ballRadius g * Dot n e / N).
  { replace (Sub (Add P (Mul n (ballRadius g - D))) A)
      with (Add (Sub closest A) (Mul n (ballRadius g)))
      by (rewrite <- E1; apply Vector_eq; unfold Add, Sub; cbn [X Y]; ring).
    rewrite Dot_Add_l, Dot_Mul_l, Ec, Sub_self_Add, Dot_Mul_l. fold N.
    field. exact HN. }
  rewrite Ht'. rewrite Ec. do 3 f_equal.
  destruct Hreg as [E0 | Hoff].
  - rewrite (Hflat E0). unfold Rdiv. rewrite Rmult_0_r, Rmult_0_l, Rplus_0_r.
    apply clamp01_inside.
    destruct (clamp01_cases t) as [[? ->] | [[? ->] | [? ->]]]; lra.
  - assert (HDpos : 0 < D) by lra.
    assert (N0 : D <> 0) by lra.
    assert (Ek : Dot n e = N * (t - clamp01 t) / D).
    { apply (Rmult_eq_reg_l D); [rewrite Hk; field; exact N0 | exact N0]. }
    replace (ballRadius g * Dot n e / N) with (ballRadius g / D * (t - clamp01 t))
      by (rewrite Ek; field; split; assumption).
    assert (Hrho : 0 < ballRadius g / D) by (apply Rdiv_lt_0_compat; lra).
    set (rho := ballRadius g / D) in *.
    destruct (clamp01_cases t) as [[H1 E] | [[H1 E] | [H1 E]]]; rewrite E.
    + destruct (clamp01_cases (0 + rho * (t - 0))) as [[? ->] | [[? ?] | [? ?]]];
        [reflexivity | nra | nra].
    + replace (t + rho * (t - t)) with t by ring. exact E.
    + destruct (clamp01_cases (1 + rho * (t - 1))) as [[? ?] | [[? ?] | [? ->]]];
        [nra | nra | reflexivity].
Qed.

Lemma contact_leaves_ball_touching_witness :
  exists g',
    resolveEdge contactA contactB (contactGame (mkVector 0 0)) = Ok g' /\
    Len (Sub (ballPos g') (mkVector 5 0)) = 10 /\
    Len (Sub (ballPos g') (mkVector 5 3)) = 10 - Len (Sub (mkVector 5 3) (mkVector 5 0)) /\
    (Len (Sub (mkVector 5 3) (mkVector 5 0)) = 0
     \/ 1 <= Len (Sub (mkVector 5 3) (mkVector 5 0)) ->
     closestPointOnSegment contactA contactB (ballPos g') = Ok (mkVector 5 0)).
Proof.
  apply (contact_leaves_ball_touching contactA contactB (contactGame (mkVector 0 0))
           (mkVector 5 0)).
  - apply contact_closest.
  - cbn [contactGame ballPos ballRadius]. rewrite contact_dist. lra.
Defined.

(** X14. At an approaching contact the velocity relative to the wall has
    its normal component reversed and multiplied by 0.9, its tangential
    component is kept, and resolving the velocity once more changes
    nothing. *)
Theorem bounce_reverses_normal_velocity
    (A B : Vector) (g : Game) (closest normal : Vector) :
  let wallVel := wallVelocity g closest in
  let relVel := Sub (ballVel g) wallVel in
  closestPointOnSegment A B (ballPos g) = Ok closest ->
  Len (Sub (ballPos g) closest) < ballRadius g ->
  collisionNormal A B (Sub (ballPos g) closest) (Len (Sub (ballPos g) closest))
    = Ok normal ->
  Dot relVel normal < 0 ->
  exists g',
    resolveEdge A B g = Ok g' /\
    Dot (Sub (ballVel g') wallVel) normal = - (9 / 10) * Dot relVel normal /\
    Dot (Sub (ballVel g') wallVel) (Perp normal) = Dot relVel (Perp normal) /\
    bounce g' closest normal = ballVel g'.
Proof.
  intros wallVel relVel Hc Hd Hn Hdot.
  destruct (collisionNormal_unit A B _ closest normal Hc Hn) as (Hu & _).
  eexists. split; [exact (resolveEdge_contact A B g closest normal Hc Hd Hn) |].
  cbn [ballVel].
  assert (Eb : bounce g closest normal
               = Add (Sub relVel (Mul normal ((1 + restitution) * Dot relVel normal)))
                     wallVel).
  { unfold bounce. fold wallVel. fold relVel.
    destruct (Rlt_dec _ _) as [_ | N]; [reflexivity | contradiction]. }
  assert (Er : Sub (bounce g closest normal) wallVel
               = Sub relVel (Mul normal ((1 + restitution) * Dot relVel normal))).
  { rewrite Eb. apply Vector_eq; unfold Add, Sub; cbn [X Y]; ring. }
  assert (E1 : Dot (Sub (bounce g closest normal) wallVel) normal
               = - (9 / 10) * Dot relVel normal).
  { rewrite Er, Dot_Sub_l, Dot_Mul_l, Hu. unfold restitution. field. }
  split; [exact E1 |]. split.
  - rewrite Er, Dot_Sub_l, Dot_Mul_l.
    replace (Dot normal (Perp normal)) with 0 by (unfold Dot, Perp; cbn [X Y]; ring).
    ring.
  - set (v' := bounce g closest normal) in *.
    match goal with
    | |- bounce ?G closest normal = v' =>
        change (bounce G closest normal)
          with (if Rlt_dec (Dot (Sub v' wallVel) normal) 0
                then Add (Sub (Sub v' wallVel)
                              (Mul normal ((1 + restitution)
                                           * Dot (Sub v' wallVel) normal)))
                         wallVel
                else v')
    end.
    rewrite E1.
    destruct (Rlt_dec _ _) as [Hlt | _]; [lra | reflexivity].
Qed.

Lemma bounce_reverses_normal_velocity_witness :
  exists g',
    resolveEdge contactA contactB (contactGame (mkVector 0 (- 300))) = Ok g' /\
    Dot (Sub (ballVel g') (wallVelocity (contactGame (mkVector 0 (- 300))) (mkVector 5 0)))
        (mkVector 0 1)
    = - (9 / 10) *
      Dot (Sub (mkVector 0 (- 300))
               (wallVelocity (contactGame (mkVector 0 (- 300))) (mkVector 5 0)))
          (mkVector 0 1) /\
    Dot (Sub (ballVel g') (wallVelocity (contactGame (mkVector 0 (- 300))) (mkVector 5 0)))
        (Perp (mkVector 0 1))
    = Dot (Sub (mkVector 0 (- 300))
               (wallVelocity (contactGame (mkVector 0 (- 300))) (mkVector 5 0)))
          (Perp (mkVector 0 1)) /\
    bounce g' (mkVector 5 0) (mkVector 0 1) = ballVel g'.
Proof.
  apply (bounce_reverses_normal_velocity contactA contactB
           (contactGame (mkVector 0 (- 300))) (mkVector 5 0) (mkVector 0 1)).
  - apply contact_closest.
  - cbn [contactGame ballPos ballRadius]. rewrite contact_dist. lra.
  - apply contact_normal.
  - unfold wallVelocity.
    unfold Dot, Perp, Mul, Sub, hexCenter, screenWidth, screenHeight.
    cbn [X Y contactGame ballVel hexAngularSpeed]. lra.
Defined.

(** ** A hexagon at rest takes speed from the ball *)

Lemma resolveEdge_speed (A B : Vector) (g g' : Game) :
  hexAngularSpeed g = 0 -> resolveEdge A B g = Ok g' ->
  Dot (ballVel g') (ballVel g') <= Dot (ballVel g) (ballVel g).
Proof.
  intros Hw H. pose proof H as H0. unfold resolveEdge in H0.
  apply bind_Ok_inv in H0. destruct H0 as (c & Hc & H0).
  destruct (Rlt_dec _ _) as [Hlt | Hge]; [| injection H0 as <-; lra].
  apply bind_Ok_inv in H0. destruct H0 as (n & Hn & _).
  destruct (collisionNormal_unit A B _ c n Hc Hn) as (Hu & _).
  rewrite (resolveEdge_contact A B g c n Hc Hlt Hn) in H.
  assert (Ev : ballVel g' = bounce g c n) by (injection H as <-; reflexivity).
  rewrite Ev. unfold bounce, wallVelocity. rewrite Hw.
  replace (Sub (ballVel g) (Mul (Perp (Sub c hexCenter)) 0)) with (ballVel g)
    by (apply Vector_eq; unfold Sub, Mul; cbn [X Y]; ring).
  destruct (Rlt_dec _ _) as [Hdot | _]; [| lra].
  set (d := Dot (ballVel g) n) in *.
  replace (Dot _ _) with (Dot (ballVel g) (ballVel g)
                          - 2 * (1 + restitution) * d * d
                          + (1 + restitution) * (1 + restitution) * d * d * Dot n n)
    by (unfold d, Dot, Add, Sub, Mul; cbn [X Y]; ring).
  rewrite Hu. unfold restitution. pose proof (Rle_0_sqr d) as Hq. unfold Rsqr in Hq. lra.
Qed.

Lemma forEdges_speed (hexVertices : list Vector) (idx : list nat) :
  forall g g', hexAngularSpeed g = 0 -> forEdges hexVertices idx g = Ok g' ->
               Dot (ballVel g') (ballVel g') <= Dot (ballVel g) (ballVel g).
Proof.
  induction idx as [| i idx IH]; intros g g' Hw H.
  - injection H as <-. lra.
  - cbn [forEdges] in H. apply bind_Ok_inv in H. destruct H as (g1 & H1 & H).
    unfold edgeStep in H1.
    apply bind_Ok_inv in H1. destruct H1 as (A & _ & H1).
    apply bind_Ok_inv in H1. destruct H1 as (B & _ & H1).
    pose proof (resolveEdge_speed A B g g1 Hw H1) as S1.
    destruct (resolveEdge_frame A B g g1 H1) as (_ & _ & Fw & _).
    assert (Hw1 : hexAngularSpeed g1 = 0) by congruence.
    pose proof (IH g1 g' Hw1 H). lra.
Qed.

(** X15. When the hexagon does not rotate, the pass over the six edges
    succeeds and the ball is no faster after it than before. *)
Theorem collide_at_rest_never_speeds_up (g : Game) :
  hexRadius g <> 0 -> hexAngularSpeed g = 0 ->
  exists g', collide g = Ok g' /\ Len (ballVel g') <= Len (ballVel g).
Proof.
  intros HR Hw. destruct (collide_total g HR) as (g' & H & _).
  exists g'. split; [exact H |].
  apply Len_le_of_Dot. exact (forEdges_speed _ _ g g' Hw H).
Qed.

Lemma collide_at_rest_never_speeds_up_witness :
  exists g',
    collide (mkGame (mkVector 600 300) (mkVector 50 0) 10 0 0 200 0%nat) = Ok g' /\
    Len (ballVel g') <= Len (mkVector 50 0).
Proof.
  apply (collide_at_rest_never_speeds_up
           (mkGame (mkVector 600 300) (mkVector 50 0) 10 0 0 200 0%nat)).
  - cbn [hexRadius]. lra.
  - reflexivity.
Defined.

(** ** Free flight *)

Section HexApothem.

Variable p : Vector.
Variable hr : R.
Hypothesis Hhr : 0 < hr.
Hypothesis Hp : Dot p p = hr * hr.

Let A := Add hexCenter p.
Let B := Add hexCenter (turn60 p).
Let u := Mul (Sub B A) (/ hr).

(** The centre of the hexagon lies [hr * sqrt 3 / 2] inside every edge. *)
Lemma hex_frame_center : Dot (Sub hexCenter A) (Perp u) = hr * (sqrt 3 / 2).
Proof.
  unfold u, A, B, Dot, Sub, Add, Mul, Perp, turn60 in *.
  destruct p as [x y]; cbn [X Y] in *.
  pose proof sqrt3_sqr as Hw. set (w := sqrt 3) in *. clearbody w.
  assert (Hinv : hr * / hr = 1) by (apply Rinv_r; lra).
  set (ihr := / hr) in *. clearbody ihr.
  assert (Hi : 2 * / 2 = 1) by lra. unfold Rdiv.
  set (half := / 2) in *. clearbody half.
  nsatz.
Qed.

(** No point of the edge is closer to [P] than the centre is inside the
    edge, less the distance from [P] to the centre. *)
Lemma hex_edge_distance (P : Vector) (l : R) :
  hr * (sqrt 3 / 2) - Len (Sub P hexCenter)
  <= Len (Sub P (Add A (Mul (Sub B A) l))).
Proof.
  pose proof (hex_frame_unit p hr Hhr Hp) as Hu. fold A B u in Hu.
  pose proof (hex_frame_edge p hr Hhr) as He. fold A B u in He.
  set (c := Add A (Mul (Sub B A) l)).
  assert (Hm : Len (Perp u) = 1).
  { apply Hypot_of_square; [lra |].
    pose proof (Dot_Perp_Perp u u) as H. unfold Dot in H. unfold Dot in Hu.
    cbn [X Y] in *. lra. }
  pose proof (Dot_le_Len (Sub P c) (Perp u)) as H1. rewrite Hm, Rmult_1_r in H1.
  pose proof (Dot_le_Len (Sub P hexCenter) (Perp u)) as H2. rewrite Hm, Rmult_1_r in H2.
  assert (E : Dot (Sub P c) (Perp u)
              = Dot (Sub P hexCenter) (Perp u) + Dot (Sub hexCenter A) (Perp u)).
  { unfold c. rewrite He.
    transitivity (Dot (Sub P hexCenter) (Perp u) + Dot (Sub hexCenter A) (Perp u)
                  - hr * l * Dot u (Perp u)).
    - unfold Dot, Sub, Add, Mul, Perp; cbn [X Y]. ring.
    - replace (Dot u (Perp u)) with 0 by (unfold Dot, Perp; cbn [X Y]; ring). ring. }
  rewrite hex_frame_center in E.
  pose proof (Rle_abs (Dot (Sub P c) (Perp u))) as A1.
  pose proof (Rle_abs (- Dot (Sub P hexCenter) (Perp u))) as A2.
  rewrite Rabs_Ropp in A2. lra.
Qed.

End HexApothem.

Lemma resolveEdge_clear (A B : Vector) (g : Game) (c : Vector) :
  closestPointOnSegment A B (ballPos g) = Ok c ->
  ballRadius g <= Len (Sub (ballPos g) c) ->
  resolveEdge A B g = Ok g.
Proof.
  intros Hc Hd. unfold resolveEdge. rewrite Hc. cbn [bind].
  destruct (Rlt_dec _ _) as [Hlt | _]; [lra | reflexivity].
Qed.

Lemma edgeStep_free (g0 g : Game) (k : nat) :
  0 < hexRadius g0 -> (k < 6)%nat ->
  Len (Sub (ballPos g) hexCenter) + ballRadius g <= hexRadius g0 * (sqrt 3 / 2) ->
  edgeStep (getHexagonVertices g0) k g = Ok g.
Proof.
  intros Hhr Hk Hin. unfold edgeStep.
  rewrite (index_getHexagonVertices g0 k Hk).
  rewrite (index_getHexagonVertices g0 ((k + 1) mod 6))
    by (apply Nat.mod_upper_bound; lia).
  cbn [bind].
  assert (HN : hexRadius g0 <> 0) by lra.
  pose proof (edge_nondegenerate g0 k HN Hk) as Hnd.
  apply (resolveEdge_clear _ _ _ _ (closestPointOnSegment_nondegenerate _ _ _ Hnd)).
  set (l := clamp01 _). clearbody l.
  pose proof (hex_edge_distance _ (hexRadius g0) Hhr (hexVertex_radius g0 k)
                (ballPos g) l) as H.
  set (p := Sub (hexVertex g0 k) hexCenter) in *.
  assert (EA : hexVertex g0 k = Add hexCenter p) by (symmetry; apply Add_Sub_self).
  assert (EB : hexVertex g0 ((k + 1) mod 6) = Add hexCenter (turn60 p)).
  { rewrite (hexVertex_next g0 k Hk), (hexVertex_iter g0 k 1). reflexivity. }
  rewrite EB, EA. lra.
Qed.

Lemma forEdges_free (g0 g : Game) (idx : list nat) :
  0 < hexRadius g0 -> Forall (fun k => (k < 6)%nat) idx ->
  Len (Sub (ballPos g) hexCenter) + ballRadius g <= hexRadius g0 * (sqrt 3 / 2) ->
  forEdges (getHexagonVertices g0) idx g = Ok g.
Proof.
  intros Hhr Hidx Hin. induction Hidx as [| k idx Hk _ IH]; [reflexivity |].
  cbn [forEdges]. rewrite (edgeStep_free g0 g k Hhr Hk Hin). exact IH.
Qed.

(** X16. While the ball, after the integration, lies within the circle
    inscribed in the hexagon by at least its radius, the step is the
    integration alone: no edge changes the position or the velocity. *)
Theorem Update_free_flight (g : Game) :
  0 < hexRadius g ->
  Len (Sub (ballPos (integrate g)) hexCenter) + ballRadius g
    <= hexRadius g * (sqrt 3 / 2) ->
  Update g = Ok (integrate g).
Proof.
  intros Hhr Hin. unfold Update, collide.
  apply forEdges_free; [exact Hhr | apply seq_0_6_bounded | exact Hin].
Qed.

Lemma sqrt3_lower : 17 / 10 <= sqrt 3.
Proof.
  apply sq_le_le; [apply sqrt_pos | rewrite sqrt3_sqr; lra].
Qed.

Lemma Update_free_flight_witness :
  Update (NewGame 0%nat) = Ok (integrate (NewGame 0%nat)).
Proof.
  apply (Update_free_flight (NewGame 0%nat)).
  - cbn [NewGame hexRadius]. lra.
  - assert (HL : Len (Sub (ballPos (integrate (NewGame 0%nat))) hexCenter) <= 151).
    { apply sq_le_le; [lra |]. rewrite Len_Dot.
      unfold Dot, Sub, hexCenter, screenWidth, screenHeight.
      cbn [integrate rotateHexagon moveBall applyFriction applyGravity
           set_hexRotation set_ballPos set_ballVel ballVel ballPos NewGame
           Mul Add X Y].
      unfold gravity, dt, airFriction, screenWidth, screenHeight. lra. }
    pose proof sqrt3_lower. cbn [NewGame ballRadius hexRadius]. lra.
Defined.

(** ** The sprite of the ball *)

Lemma wrapInt_small (z : Z) : (- 2 ^ 63 <= z < 2 ^ 63)%Z -> wrapInt z = z.
Proof.
  intros H. unfold wrapInt. rewrite Z.mod_small; lia.
Qed.

Lemma In_upTo (n x : Z) : In x (upTo n) <-> (0 <= x < n)%Z.
Proof.
  unfold upTo. rewrite in_map_iff. split.
  - intros (k & <- & Hk). apply in_seq in Hk. lia.
  - intros Hx. exists (Z.to_nat x). split; [lia | apply in_seq; lia].
Qed.

Lemma NoDup_upTo (n : Z) : NoDup (upTo n).
Proof.
  unfold upTo. apply NoDup_map_NoDup_ForallPairs; [| apply seq_NoDup].
  intros a b _ _ H. lia.
Qed.

Lemma NoDup_flat_map_keyed {A B : Type} (f : A -> list B) (key : B -> A) (l : list A) :
  NoDup l -> (forall a, NoDup (f a)) -> (forall a b, In b (f a) -> key b = a) ->
  NoDup (flat_map f l).
Proof.
  intros Hl Hf Hkey. induction Hl as [| a l Ha _ IH]; [constructor |].
  cbn [flat_map]. apply NoDup_app; [apply Hf | exact IH |].
  intros b Hb Hin. apply in_flat_map in Hin. destruct Hin as (a' & Ha' & Hb').
  apply Hkey in Hb, Hb'. congruence.
Qed.

(** X17. For a radius from 0 to 2^26, [createCircleImage] sets each pixel
    at most once, and it sets exactly the pixels of the image of side
    [2 * radius] whose offset from [(radius, radius)] is at most [radius]
    long. *)
Theorem createCircleImage_pixels (radius : Z) :
  (0 <= radius < 2 ^ 26)%Z ->
  NoDup (createCircleImage radius) /\
  forall x y,
    In (x, y) (createCircleImage radius) <->
    (0 <= x < 2 * radius /\ 0 <= y < 2 * radius /\
     (x - radius) * (x - radius) + (y - radius) * (y - radius) <= radius * radius)%Z.
Proof.
  intros Hr. split.
  { unfold createCircleImage.
    apply (NoDup_flat_map_keyed _ snd); [apply NoDup_upTo | |].
    - intros y. apply (NoDup_flat_map_keyed _ fst); [apply NoDup_upTo | |].
      + intros x. destruct (Rle_dec _ _); repeat constructor. intros [].
      + intros x b Hb. destruct (Rle_dec _ _); [| destruct Hb].
        destruct Hb as [<- | []]. reflexivity.
    - intros y b Hb. apply in_flat_map in Hb. destruct Hb as (x & _ & Hb).
      destruct (Rle_dec _ _); [| destruct Hb]. destruct Hb as [<- | []]. reflexivity. }
  intros x y. unfold createCircleImage.
  assert (Hd : wrapInt (2 * radius) = (2 * radius)%Z) by (apply wrapInt_small; lia).
  assert (Hrr : wrapInt (radius * radius) = (radius * radius)%Z)
    by (apply wrapInt_small; nia).
  rewrite Hd, Hrr. rewrite in_flat_map. split.
  - intros (y0 & Hy0 & Hin). apply in_flat_map in Hin.
    destruct Hin as (x0 & Hx0 & Hin).
    apply In_upTo in Hy0, Hx0.
    rewrite !wrapInt_small in Hin by lia.
    destruct (Rle_dec _ _) as [Hle | _]; [| contradiction].
    destruct Hin as [E | []]. injection E as <- <-.
    split; [lia |]. split; [lia |].
    rewrite <- !mult_IZR, <- plus_IZR in Hle. now apply le_IZR.
  - intros (Hx & Hy & Hle).
    exists y. split; [now apply In_upTo |].
    apply in_flat_map. exists x. split; [now apply In_upTo |].
    rewrite !wrapInt_small by lia.
    destruct (Rle_dec _ _) as [_ | N]; [now left |].
    exfalso. apply N. rewrite <- !mult_IZR, <- plus_IZR. now apply IZR_le.
Qed.

Lemma createCircleImage_pixels_witness :
  NoDup (createCircleImage 10) /\
  forall x y,
    In (x, y) (createCircleImage 10) <->
    (0 <= x < 2 * 10 /\ 0 <= y < 2 * 10 /\
     (x - 10) * (x - 10) + (y - 10) * (y - 10) <= 10 * 10)%Z.
Proof.
  apply (createCircleImage_pixels 10). lia.
Defined.

(** ** Drawing *)

Lemma drawEdges_lines (g : Game) (idx : list nat) :
  Forall (fun i => (i < 6)%nat) idx ->
  drawEdges (getHexagonVertices g) idx
  = Ok (map (fun i => OpLine (X (hexVertex g i)) (Y (hexVertex g i))
                             (X (hexVertex g ((i + 1) mod 6)))
                             (Y (hexVertex g ((i + 1) mod 6)))) idx).
Proof.
  induction 1 as [| i idx Hi _ IH]; [reflexivity |].
  cbn [drawEdges map].
  rewrite (index_getHexagonVertices g i Hi).
  rewrite (index_getHexagonVertices g ((i + 1) mod 6))
    by (apply Nat.mod_upper_bound; lia).
  cbn [bind]. rewrite IH. reflexivity.
Qed.

(** X18. [Draw] never fails; it fills the screen, draws six lines of which
    line [i] starts at vertex [i] and ends where the next line of the cycle
    starts, and then draws the sprite with its corner at the ball position
    less the radius in both coordinates. *)
Theorem Draw_outline_and_ball (g : Game) :
  exists lines,
    Draw g = Ok (OpFill 30 30 30 255
                 :: lines
                 ++ [OpImage (circleImage g) (X (ballPos g) - ballRadius g)
                             (Y (ballPos g) - ballRadius g)]) /\
    length lines = 6%nat /\
    forall i, (i < 6)%nat ->
      exists A B C,
        index (getHexagonVertices g) i = Ok A /\
        nth_error lines i = Some (OpLine (X A) (Y A) (X B) (Y B)) /\
        nth_error lines ((i + 1) mod 6) = Some (OpLine (X B) (Y B) (X C) (Y C)).
Proof.
  exists (map (fun i => OpLine (X (hexVertex g i)) (Y (hexVertex g i))
                               (X (hexVertex g ((i + 1) mod 6)))
                               (Y (hexVertex g ((i + 1) mod 6)))) (seq 0 6)).
  split; [| split].
  - unfold Draw. rewrite (drawEdges_lines g (seq 0 6) seq_0_6_bounded).
    cbn [bind]. unfold Translate; cbn [X Y].
    replace (0 + - ballRadius g + X (ballPos g)) with (X (ballPos g) - ballRadius g)
      by ring.
    replace (0 + - ballRadius g + Y (ballPos g)) with (Y (ballPos g) - ballRadius g)
      by ring.
    reflexivity.
  - reflexivity.
  - intros i Hi.
    exists (hexVertex g i), (hexVertex g ((i + 1) mod 6)),
           (hexVertex g (((i + 1) mod 6 + 1) mod 6)).
    split; [now apply index_getHexagonVertices |].
    do 6 (destruct i as [| i]; [split; reflexivity |]). lia.
Qed.

(** ** The moving wall *)

(** X20. The velocity of the wall at a point is orthogonal to the vector
    from the centre to the point, and its length is the absolute angular
    speed times the distance of the point from the centre. *)
Theorem wallVelocity_tangential (g : Game) (closest : Vector) :
  Dot (wallVelocity g closest) (Sub closest hexCenter) = 0 /\
  Len (wallVelocity g closest)
  = Rabs (hexAngularSpeed g) * Len (Sub closest hexCenter).
Proof.
  unfold wallVelocity. split.
  - rewrite Dot_Mul_l, Dot_Perp_self. ring.
  - rewrite Len_Mul. f_equal.
    unfold Len, Hypot, Perp; cbn [X Y]. f_equal. ring.
Qed.

(** X21. A ball at rest that a wall moves into leaves the contact along
    the normal, with 1.9 times the normal speed of the wall. *)
Theorem resting_ball_is_thrown
    (A B : Vector) (g : Game) (closest normal : Vector) :
  ballVel g = mkVector 0 0 ->
  closestPointOnSegment A B (ballPos g) = Ok closest ->
  Len (Sub (ballPos g) closest) < ballRadius g ->
  collisionNormal A B (Sub (ballPos g) closest) (Len (Sub (ballPos g) closest))
    = Ok normal ->
  0 < Dot (wallVelocity g closest) normal ->
  exists g',
    resolveEdge A B g = Ok g' /\
    ballVel g' = Mul normal ((1 + 9 / 10) * Dot (wallVelocity g closest) normal).
Proof.
  intros Hv Hc Hd Hn Hdot.
  eexists. split; [exact (resolveEdge_contact A B g closest normal Hc Hd Hn) |].
  cbn [ballVel]. unfold bounce. rewrite Hv.
  set (wv := wallVelocity g closest) in *.
  assert (E : Dot (Sub (mkVector 0 0) wv) normal = - Dot wv normal)
    by (unfold Dot, Sub; cbn [X Y]; ring).
  rewrite E.
  destruct (Rlt_dec _ _) as [_ | N]; [| lra].
  apply Vector_eq; unfold Add, Sub, Mul, restitution; cbn [X Y]; ring.
Qed.

Lemma resting_ball_is_thrown_witness :
  exists g',
    resolveEdge contactA contactB
      (mkGame (mkVector 5 3) (mkVector 0 0) 10 0 (- (1 / 2)) 200 0%nat) = Ok g' /\
    ballVel g'
    = Mul (mkVector 0 1)
          ((1 + 9 / 10)
           * Dot (wallVelocity
                    (mkGame (mkVector 5 3) (mkVector 0 0) 10 0 (- (1 / 2)) 200 0%nat)
                    (mkVector 5 0))
                 (mkVector 0 1)).
Proof.
  apply (resting_ball_is_thrown contactA contactB
           (mkGame (mkVector 5 3) (mkVector 0 0) 10 0 (- (1 / 2)) 200 0%nat)
           (mkVector 5 0) (mkVector 0 1)).
  - reflexivity.
  - exact (contact_closest (mkVector 0 0)).
  - cbn [ballPos ballRadius]. rewrite contact_dist. lra.
  - exact contact_normal.
  - unfold wallVelocity.
    unfold Dot, Perp, Mul, Sub, hexCenter, screenWidth, screenHeight.
    cbn [X Y ballVel hexAngularSpeed]. lra.
Defined.
